(** * Minesweeper: the board, the sentences and the inference engine

  A shallow embedding of [minesweeper.py].  The three Python classes
  become three modules.  Python sets of cells are [gset]s, the knowledge
  base is a [list] of sentences (order and duplicates matter), integers
  are [Z], loop counters are [nat].  Objects that the Python code mutates
  in place are threaded through the functions as values. *)

From stdpp Require Import gmap list sets fin_sets numbers.

Local Open Scope Z_scope.

(** A cell is the tuple [(row, col)]. *)
Abbreviation Cell := (Z * Z)%type.

(** [range(lo, hi)]. *)
Definition range (lo hi : Z) : list Z := seqZ lo (hi - lo).

(** ** class Sentence *)
Module Sentence.

Record t : Type := Sentence { cells : gset Cell; count : Z }.

#[global] Instance eq_dec : EqDecision t.
Proof. solve_decision. Defined.

(** [len(self.cells)] *)
Definition len (s : t) : Z := Z.of_nat (size (cells s)).

(** [__eq__] *)
Definition eqb (s o : t) : bool :=
  bool_decide (cells s = cells o) && bool_decide (count s = count o).

(** The Python methods return [self.cells] or [None]. *)
Definition known_mines (s : t) : option (gset Cell) :=
  if bool_decide (len s ≠ 0) && bool_decide (len s = count s)
  then Some (cells s) else None.

Definition known_safes (s : t) : option (gset Cell) :=
  if bool_decide (len s ≠ 0) && bool_decide (count s <= 0)
  then Some (cells s) else None.

(** [if self.cells and cell in self.cells]: the first conjunct is implied
    by the second. *)
Definition mark_mine (cell : Cell) (s : t) : t :=
  if bool_decide (cells s ≠ ∅) && bool_decide (cell ∈ cells s)
  then Sentence (cells s ∖ {[cell]}) (count s - 1)
  else s.

Definition mark_safe (cell : Cell) (s : t) : t :=
  if bool_decide (cells s ≠ ∅) && bool_decide (cell ∈ cells s)
  then Sentence (cells s ∖ {[cell]}) (count s)
  else s.

End Sentence.

(** ** class Minesweeper *)
Module Minesweeper.

Record t : Type := Minesweeper {
  height : Z;
  width : Z;
  mines : gset Cell;
  board : list (list bool);
  mines_found : gset Cell
}.

(** The empty field built by the first two loops of [__init__]. *)
Definition empty_board (h w : Z) : list (list bool) :=
  foldl (λ board _,
    board ++ [foldl (λ row _, row ++ [false]) [] (range 0 w)])
    [] (range 0 h).

(** [self.board[i][j]], for indices that are not negative. *)
Definition board_get (b : list (list bool)) (i j : Z) : option bool :=
  b !! Z.to_nat i ≫= λ row, row !! Z.to_nat j.

(** [self.board[i][j] = True] *)
Definition board_set (b : list (list bool)) (i j : Z) : list (list bool) :=
  match b !! Z.to_nat i with
  | Some row => <[Z.to_nat i := <[Z.to_nat j := true]> row]> b
  | None => b
  end.

(** What a call of the constructor has done after a given number of
    random draws: it has returned, it has raised, or it is still inside
    the placement loop. *)
Inductive outcome : Type :=
  | Built (g : t)
  | Raised
  | Running (g : t).

(** The placement loop.  [draws] are the successive results of the pairs
    of [random.randrange] calls, which lie in [0, height) and [0, width);
    [randrange] raises [ValueError] on an empty range. *)
Fixpoint place (n_mines : Z) (draws : list Cell) (g : t) : outcome :=
  if bool_decide (Z.of_nat (size (mines g)) = n_mines) then Built g
  else if bool_decide (height g <= 0) || bool_decide (width g <= 0) then Raised
  else
    match draws with
    | [] => Running g
    | (i, j) :: draws' =>
        match board_get (board g) i j with
        | None => Raised
        | Some true => place n_mines draws' g
        | Some false =>
            place n_mines draws'
              (Minesweeper (height g) (width g) ({[(i, j)]} ∪ mines g)
                 (board_set (board g) i j) (mines_found g))
        end
    end.

(** [Minesweeper(height, width, mines)] *)
Definition init (h w n_mines : Z) (draws : list Cell) : outcome :=
  place n_mines draws (Minesweeper h w ∅ (empty_board h w) ∅).

(** The draws that [randrange] can produce on an [h] by [w] board. *)
Definition draws_in_range (h w : Z) (draws : list Cell) : Prop :=
  Forall (λ d : Cell, 0 <= d.1 < h ∧ 0 <= d.2 < w) draws.

(** The board has [height] rows of [width] entries, as [__init__] builds it. *)
Definition wf (g : t) : Prop :=
  length (board g) = Z.to_nat (height g) ∧
  Forall (λ row, length row = Z.to_nat (width g)) (board g).

(** [self.board[i][j]] read as a truth value, on a well-formed board and
    in-bounds indices, where the lookup is defined. *)
Definition board_at (g : t) (i j : Z) : bool :=
  default false (board_get (board g) i j).

Definition is_mine (g : t) (cell : Cell) : bool := board_at g cell.1 cell.2.

Definition in_bounds (g : t) (i j : Z) : bool :=
  bool_decide (0 <= i < height g) && bool_decide (0 <= j < width g).

Definition nearby_mines (g : t) (cell : Cell) : Z :=
  foldl (λ count i,
    foldl (λ count j,
      if bool_decide ((i, j) = cell) then count
      else if in_bounds g i j
           then (if board_at g i j then count + 1 else count)
           else count)
      count (range (cell.2 - 1) (cell.2 + 2)))
    0 (range (cell.1 - 1) (cell.1 + 2)).

(** [won] *)
Definition won (g : t) : bool := bool_decide (mines_found g = mines g).

End Minesweeper.

(** ** class MinesweeperAI *)
Module AI.

Record t : Type := MinesweeperAI {
  height : Z;
  width : Z;
  moves_made : gset Cell;
  mines : gset Cell;
  safes : gset Cell;
  knowledge : list Sentence.t
}.

(** [MinesweeperAI(height, width)] *)
Definition init (h w : Z) : t := MinesweeperAI h w ∅ ∅ ∅ [].

Definition set_knowledge (k : list Sentence.t) (ai : t) : t :=
  MinesweeperAI (height ai) (width ai) (moves_made ai) (mines ai) (safes ai) k.

(** Every sentence object of the knowledge base is told about the cell.
    A sentence object that occurs at several positions of the list is
    visited several times; the sentence methods change nothing on a
    second visit, so mapping over the positions gives the same list. *)
Definition mark_mine (cell : Cell) (ai : t) : t :=
  MinesweeperAI (height ai) (width ai) (moves_made ai)
    ({[cell]} ∪ mines ai) (safes ai)
    (Sentence.mark_mine cell <$> knowledge ai).

Definition mark_safe (cell : Cell) (ai : t) : t :=
  MinesweeperAI (height ai) (width ai) (moves_made ai)
    (mines ai) ({[cell]} ∪ safes ai)
    (Sentence.mark_safe cell <$> knowledge ai).

(** The clamped bounds computed at the head of [get_neighbours]. *)
Definition row_bounds (ai : t) (cell : Cell) : Z * Z :=
  let up := cell.1 - 1 in
  let down := cell.1 + 1 in
  if bool_decide (cell.1 = 0) then (cell.1, down)
  else if bool_decide (cell.1 = height ai - 1) then (up, height ai - 1)
  else (up, down).

Definition col_bounds (ai : t) (cell : Cell) : Z * Z :=
  let left' := cell.2 - 1 in
  let right' := cell.2 + 1 in
  if bool_decide (cell.2 = 0) then (cell.2, right')
  else if bool_decide (cell.2 = width ai - 1) then (left', width ai - 1)
  else (left', right').

Definition get_neighbours (ai : t) (cell : Cell) : gset Cell :=
  let '(up, down) := row_bounds ai cell in
  let '(left', right') := col_bounds ai cell in
  foldl (λ acc row,
    foldl (λ acc col,
      if bool_decide ((row, col) ∈ safes ai) then acc
      else {[(row, col)]} ∪ acc)
      acc (range left' (right' + 1)))
    ∅ (range up (down + 1)).

(** [self.knowledge[i].cells], read at the moment of the call. *)
Definition cells_at (ai : t) (i : nat) : gset Cell :=
  from_option Sentence.cells ∅ (knowledge ai !! i).

Definition mark_mines_counting (l : list Cell) (st : t * nat) : t * nat :=
  foldl (λ st m, (mark_mine m st.1, S st.2)) st l.

Definition mark_safes_counting (l : list Cell) (st : t * nat) : t * nat :=
  foldl (λ st m, (mark_safe m st.1, S st.2)) st l.

(** The body of the [for sent in self.knowledge] loop of
    [update_with_new_sentence], for the sentence at position [i].  Both
    answers are computed first.  A non-[None] answer is the very set
    object [sent.cells], so each [deepcopy] copies the contents that
    this object has at that moment. *)
Definition resolve_sentence (st : t * nat) (i : nat) : t * nat :=
  match knowledge st.1 !! i with
  | None => st
  | Some sent =>
      let mines := Sentence.known_mines sent in
      let safes := Sentence.known_safes sent in
      let st1 :=
        if mines is Some _
        then mark_mines_counting (elements (cells_at st.1 i)) st
        else st in
      if safes is Some _
      then mark_safes_counting (elements (cells_at st1.1 i)) st1
      else st1
  end.

(** One full pass over the knowledge base; returns [changed_things]. *)
Definition resolve_pass (ai : t) : t * nat :=
  foldl resolve_sentence (ai, 0%nat) (seq 0 (length (knowledge ai))).

(** [update_with_new_sentence] calls itself while a pass changed
    something.  [fuel] bounds the number of passes; the second component
    of the result is the number of recursive calls that were made. *)
Fixpoint update_loop (fuel : nat) (ai : t) : option (t * nat) :=
  match fuel with
  | O => None
  | S fuel' =>
      let st := resolve_pass ai in
      if bool_decide (0 < st.2)%nat
      then (λ r : t * nat, (r.1, S r.2)) <$> update_loop fuel' st.1
      else Some (st.1, 0%nat)
  end.

(** Number of (sentence, cell) memberships of the knowledge base. *)
Definition memberships (ai : t) : nat :=
  sum_list ((λ s, size (Sentence.cells s)) <$> knowledge ai).

(** The method itself; [update_loop_enough] below shows that the
    fuel given here is always enough. *)
Definition update_with_new_sentence (ai : t) : t :=
  match update_loop (S (memberships ai)) ai with
  | Some r => r.1
  | None => ai
  end.

(** [[sent if sent.cells != target else new_sent for sent in knowledge]] *)
Definition replace_cells (k : list Sentence.t) (target : gset Cell)
    (new_sent : Sentence.t) : list Sentence.t :=
  (λ sent, if bool_decide (Sentence.cells sent ≠ target) then sent else new_sent) <$> k.

(** The body of the inner loop of [get_subset_knowledge]; the state is
    [(new_knowledge, changed_things)], [k] is [self.knowledge]. *)
Definition subset_step (k : list Sentence.t) (sent_1 : Sentence.t)
    (st : list Sentence.t * nat) (sent_2 : Sentence.t) : list Sentence.t * nat :=
  let cells_1 := Sentence.cells sent_1 in
  let cells_2 := Sentence.cells sent_2 in
  let count_1 := Sentence.count sent_1 in
  let count_2 := Sentence.count sent_2 in
  if bool_decide (cells_1 ≠ cells_2) && bool_decide (Sentence.len sent_1 ≠ 0)
     && bool_decide (Sentence.len sent_2 ≠ 0)
  then
    let st1 :=
      if bool_decide (cells_1 ⊆ cells_2)
      then (replace_cells k cells_2
              (Sentence.Sentence (cells_2 ∖ cells_1) (count_2 - count_1)),
            S st.2)
      else st in
    if bool_decide (cells_2 ⊆ cells_1)
    then (replace_cells k cells_1
            (Sentence.Sentence (cells_1 ∖ cells_2) (count_1 - count_2)),
          S st1.2)
    else st1
  else st.

Definition subset_scan (k : list Sentence.t) : list Sentence.t * nat :=
  foldl (λ st sent_1, foldl (subset_step k sent_1) st k) ([], 0%nat) k.

Definition get_subset_knowledge (ai : t) : t :=
  let st := subset_scan (knowledge ai) in
  if bool_decide (0 < st.2)%nat then set_knowledge st.1 ai else ai.

(** [add_knowledge] up to and including the call of
    [update_with_new_sentence]. *)
Definition record_and_resolve (cell : Cell) (count : Z) (ai : t) : t :=
  let ai1 :=
    MinesweeperAI (height ai) (width ai) ({[cell]} ∪ moves_made ai)
      (mines ai) (safes ai) (knowledge ai) in
  let ai2 := mark_safe cell ai1 in
  let neighbours := get_neighbours ai2 cell in
  let sentence := Sentence.Sentence neighbours count in
  let ai3 := set_knowledge (knowledge ai2 ++ [sentence]) ai2 in
  update_with_new_sentence ai3.

Definition add_knowledge (cell : Cell) (count : Z) (ai : t) : t :=
  get_subset_knowledge (record_and_resolve cell count ai).

(** [make_safe_move] walks through [self.safes] in the iteration order
    of the Python set, which the program does not fix; [order] is that
    order.  The answer is the first cell that is not a move made. *)
Definition make_safe_move (order : list Cell) (ai : t) : option Cell :=
  head (filter (λ move, move ∉ moves_made ai) order).

(** An admissible iteration order lists the elements of the set once each. *)
Definition iteration_order (order : list Cell) (X : gset Cell) : Prop :=
  NoDup order ∧ list_to_set order = X.

(** The candidate list built by the two loops of [make_random_move]. *)
Definition all_possible_cells (ai : t) : list Cell :=
  foldl (λ acc i,
    foldl (λ acc j,
      if bool_decide ((i, j) ∉ moves_made ai) && bool_decide ((i, j) ∉ mines ai)
      then acc ++ [(i, j)] else acc)
      acc (range 0 8))
    [] (range 0 8).

(** [random.choice(seq)] is [seq[k]] for a random index [k] below
    [len(seq)]; [k] is the outcome of the random draw. *)
Definition make_random_move (k : nat) (ai : t) : option Cell :=
  let all := all_possible_cells ai in
  if bool_decide (all ≠ []) then all !! k else None.

End AI.


(** ** Playing: a sequence of revealed cells with their reported counts *)

Definition observe (ai : AI.t) (o : Cell * Z) : AI.t :=
  AI.add_knowledge o.1 o.2 ai.

Definition run (obs : list (Cell * Z)) (ai : AI.t) : AI.t :=
  foldl observe ai obs.

Definition in_grid (h w : Z) (c : Cell) : Prop :=
  0 <= c.1 < h ∧ 0 <= c.2 < w.

Definition chebyshev (c d : Cell) : Z :=
  Z.max (Z.abs (c.1 - d.1)) (Z.abs (c.2 - d.2)).

(** The preconditions of [add_knowledge] as the interface lists them: the
    cell is inside the grid, the engine has not marked it as a mine, the
    count is the board's count of nearby mines. *)
Definition interface_precondition (g : Minesweeper.t) (ai : AI.t)
    (o : Cell * Z) : Prop :=
  in_grid (AI.height ai) (AI.width ai) o.1 ∧
  (o.1 ∉ AI.mines ai) ∧
  o.2 = Minesweeper.nearby_mines g o.1.

Fixpoint interface_respected (g : Minesweeper.t) (ai : AI.t)
    (obs : list (Cell * Z)) : Prop :=
  match obs with
  | [] => True
  | o :: obs' =>
      interface_precondition g ai o ∧ interface_respected g (observe ai o) obs'
  end.

(** The cell holds a mine of the board: it lies on the board and its
    entry is set. *)
Definition mine_at (g : Minesweeper.t) (c : Cell) : Prop :=
  Minesweeper.in_bounds g c.1 c.2 = true ∧ Minesweeper.is_mine g c = true.

(** Only cells without a mine are revealed. *)
Definition reveals_safe_cells (g : Minesweeper.t) (obs : list (Cell * Z)) : Prop :=
  Forall (λ o : Cell * Z, ¬ mine_at g o.1) obs.

#[global] Instance mine_at_dec g c : Decision (mine_at g c).
Proof. unfold mine_at. apply _. Defined.

(** How many cells of a set hold a mine of the board. *)
Definition mines_among (g : Minesweeper.t) (X : gset Cell) : Z :=
  Z.of_nat (size (filter (mine_at g) X)).

(** The sentence says the truth about the board. *)
Definition sentence_true (g : Minesweeper.t) (s : Sentence.t) : Prop :=
  Sentence.count s = mines_among g (Sentence.cells s).

(** Everything the engine holds is true of the board. *)
Definition sound (g : Minesweeper.t) (ai : AI.t) : Prop :=
  (∀ c, c ∈ AI.mines ai → mine_at g c) ∧
  (∀ c, c ∈ AI.safes ai → ¬ mine_at g c) ∧
  Forall (sentence_true g) (AI.knowledge ai).

(** The engine was created with the dimensions of the board. *)
Definition same_grid (g : Minesweeper.t) (ai : AI.t) : Prop :=
  AI.height ai = Minesweeper.height g ∧ AI.width ai = Minesweeper.width g.

(** ** Boards and engine states used in the examples *)

(** Two rows, four columns, one mine in the corner [(0, 0)]. *)
Definition board_2x4 : Minesweeper.t :=
  Minesweeper.Minesweeper 2 4 {[(0, 0)]}
    [[true; false; false; false]; [false; false; false; false]] ∅.

(** Three by three, one mine in the centre. *)
Definition board_3x3 : Minesweeper.t :=
  Minesweeper.Minesweeper 3 3 {[(1, 1)]}
    [[false; false; false]; [false; true; false]; [false; false; false]] ∅.

(** The sentences of the subset example: [{c1,c2,c3} = 1],
    [{c1,c2,c3,c4} = 2] and the derived [{c4} = 1]. *)
Definition sentence_A (c1 c2 c3 : Cell) : Sentence.t :=
  Sentence.Sentence {[c1; c2; c3]} 1.

Definition sentence_B (c1 c2 c3 c4 : Cell) : Sentence.t :=
  Sentence.Sentence {[c1; c2; c3; c4]} 2.

Definition sentence_N (c4 : Cell) : Sentence.t :=
  Sentence.Sentence {[c4]} 1.

(** ** Measures used in the proofs *)

(** The number of memberships of a list of sentences. *)
Definition total_cells (k : list Sentence.t) : nat :=
  sum_list ((λ s, size (Sentence.cells s)) <$> k).

(** What one step, and so one pass, keeps: memberships plus counted
    changes do not grow, the counter does not fall, the list keeps its
    length. *)
Definition bounded_by (st r : AI.t * nat) : Prop :=
  (AI.memberships r.1 + r.2 ≤ AI.memberships st.1 + st.2)%nat ∧
  (st.2 ≤ r.2)%nat ∧
  length (AI.knowledge r.1) = length (AI.knowledge st.1).

(** The engine's sets of the later state contain those of the earlier
    one, and the dimensions are the same. *)
Definition grows (ai ai' : AI.t) : Prop :=
  AI.mines ai ⊆ AI.mines ai' ∧
  AI.safes ai ⊆ AI.safes ai' ∧
  AI.moves_made ai ⊆ AI.moves_made ai' ∧
  AI.height ai' = AI.height ai ∧
  AI.width ai' = AI.width ai.

(** All the cells of an [h] by [w] board. *)
Definition grid_cells (h w : Z) : gset Cell :=
  list_to_set (cprod (range 0 h) (range 0 w)).

(** ** Notions used to state further properties *)

(** A sentence from which neither method draws a conclusion. *)
Definition unresolved (s : Sentence.t) : Prop :=
  Sentence.known_mines s = None ∧ Sentence.known_safes s = None.

(** The pair for which the subset rule applies: different cell sets,
    both non-empty, the first contained in the second. *)
Definition fires (s1 s2 : Sentence.t) : Prop :=
  Sentence.cells s1 ≠ Sentence.cells s2 ∧
  Sentence.cells s1 ≠ ∅ ∧ Sentence.cells s2 ≠ ∅ ∧
  Sentence.cells s1 ⊆ Sentence.cells s2.

(** The sentence the subset rule derives from such a pair. *)
Definition derived (s1 s2 : Sentence.t) : Sentence.t :=
  Sentence.Sentence (Sentence.cells s2 ∖ Sentence.cells s1)
    (Sentence.count s2 - Sentence.count s1).

(** What the scan of [get_subset_knowledge] holds at any moment: nothing
    yet, or the knowledge base with the sentences on one cell set
    replaced by the sentence derived from one pair. *)
Definition scan_shape (k : list Sentence.t) (st : list Sentence.t * nat) : Prop :=
  st = ([], 0%nat) ∨
  ((0 < st.2)%nat ∧
   ∃ s1 s2, s1 ∈ k ∧ s2 ∈ k ∧ fires s1 s2 ∧
            st.1 = AI.replace_cells k (Sentence.cells s2) (derived s1 s2)).

(** No sentence of the knowledge base mentions a known safe cell. *)
Definition tidy (ai : AI.t) : Prop :=
  Forall (λ s, Sentence.cells s ## AI.safes ai) (AI.knowledge ai).

(** The flags of the board are set exactly on the cells of [self.mines]. *)
Definition board_agrees (g : Minesweeper.t) : Prop :=
  ∀ i j, 0 <= i < Minesweeper.height g → 0 <= j < Minesweeper.width g →
    (Minesweeper.board_get (Minesweeper.board g) i j = Some true ↔
     (i, j) ∈ Minesweeper.mines g).

(** The state of a board under construction or just built. *)
Definition well_built (h w : Z) (g : Minesweeper.t) : Prop :=
  Minesweeper.height g = h ∧ Minesweeper.width g = w ∧
  Minesweeper.wf g ∧
  Minesweeper.mines g ⊆ grid_cells h w ∧
  board_agrees g ∧
  Minesweeper.mines_found g = ∅.

(** * Properties *)

(** ** Sentences *)
Section sentence_facts.
Implicit Types (s : Sentence.t) (c : Cell).

Lemma len_zero_iff s : Sentence.len s = 0 ↔ Sentence.cells s = ∅.
Proof.
  unfold Sentence.len. split.
  - intros H. apply leibniz_equiv, size_empty_iff. lia.
  - intros ->. by rewrite size_empty.
Qed.

Lemma sentence_mark_mine_in s c :
  c ∈ Sentence.cells s →
  Sentence.mark_mine c s =
    Sentence.Sentence (Sentence.cells s ∖ {[c]}) (Sentence.count s - 1).
Proof.
  intros Hc. unfold Sentence.mark_mine.
  rewrite (bool_decide_eq_true_2 (Sentence.cells s ≠ ∅)) by set_solver.
  by rewrite (bool_decide_eq_true_2 (c ∈ Sentence.cells s)).
Qed.

Lemma sentence_mark_mine_notin s c :
  c ∉ Sentence.cells s → Sentence.mark_mine c s = s.
Proof.
  intros Hc. unfold Sentence.mark_mine.
  rewrite (bool_decide_eq_false_2 (c ∈ Sentence.cells s)) by done.
  by rewrite andb_false_r.
Qed.

Lemma sentence_mark_safe_in s c :
  c ∈ Sentence.cells s →
  Sentence.mark_safe c s =
    Sentence.Sentence (Sentence.cells s ∖ {[c]}) (Sentence.count s).
Proof.
  intros Hc. unfold Sentence.mark_safe.
  rewrite (bool_decide_eq_true_2 (Sentence.cells s ≠ ∅)) by set_solver.
  by rewrite (bool_decide_eq_true_2 (c ∈ Sentence.cells s)).
Qed.

Lemma sentence_mark_safe_notin s c :
  c ∉ Sentence.cells s → Sentence.mark_safe c s = s.
Proof.
  intros Hc. unfold Sentence.mark_safe.
  rewrite (bool_decide_eq_false_2 (c ∈ Sentence.cells s)) by done.
  by rewrite andb_false_r.
Qed.

Lemma sentence_mark_mine_cells s c :
  Sentence.cells (Sentence.mark_mine c s) = Sentence.cells s ∖ {[c]}.
Proof.
  destruct (decide (c ∈ Sentence.cells s)) as [Hc|Hc].
  - by rewrite sentence_mark_mine_in.
  - rewrite sentence_mark_mine_notin by done. set_solver.
Qed.

Lemma sentence_mark_safe_cells s c :
  Sentence.cells (Sentence.mark_safe c s) = Sentence.cells s ∖ {[c]}.
Proof.
  destruct (decide (c ∈ Sentence.cells s)) as [Hc|Hc].
  - by rewrite sentence_mark_safe_in.
  - rewrite sentence_mark_safe_notin by done. set_solver.
Qed.

Lemma sentence_mark_mine_idem s c :
  Sentence.mark_mine c (Sentence.mark_mine c s) = Sentence.mark_mine c s.
Proof.
  apply sentence_mark_mine_notin. rewrite sentence_mark_mine_cells. set_solver.
Qed.

Lemma known_mines_Some s X :
  Sentence.known_mines s = Some X ↔
  X = Sentence.cells s ∧ Sentence.cells s ≠ ∅ ∧ Sentence.len s = Sentence.count s.
Proof.
  unfold Sentence.known_mines. rewrite <- len_zero_iff.
  repeat case_bool_decide; simpl; naive_solver.
Qed.

Lemma known_safes_Some s X :
  Sentence.known_safes s = Some X ↔
  X = Sentence.cells s ∧ Sentence.cells s ≠ ∅ ∧ Sentence.count s <= 0.
Proof.
  unfold Sentence.known_safes. rewrite <- len_zero_iff.
  repeat case_bool_decide; simpl; naive_solver.
Qed.

(** C8: [known_safes] answers with the whole cell set exactly when the set
    is not empty and the count is at most zero (a negative count
    included); in every other case, and so on every empty cell set
    whatever the count, it answers [None]; [known_mines] also answers
    [None] on an empty cell set. *)
Theorem known_safes_spec s :
  (Sentence.known_safes s = Some (Sentence.cells s) ↔
     Sentence.cells s ≠ ∅ ∧ Sentence.count s <= 0) ∧
  (Sentence.known_safes s = None ↔
     ¬ (Sentence.cells s ≠ ∅ ∧ Sentence.count s <= 0)) ∧
  (Sentence.cells s = ∅ →
     Sentence.known_safes s = None ∧ Sentence.known_mines s = None).
Proof.
  split_and!.
  - rewrite known_safes_Some. naive_solver.
  - destruct (Sentence.known_safes s) as [X|] eqn:E.
    + apply known_safes_Some in E. naive_solver.
    + split; [|done]. intros _ H.
      assert (Sentence.known_safes s = Some (Sentence.cells s)) as E'
        by (apply known_safes_Some; naive_solver).
      congruence.
  - intros Hs. apply len_zero_iff in Hs.
    unfold Sentence.known_safes, Sentence.known_mines.
    rewrite (bool_decide_eq_false_2 (Sentence.len s ≠ 0)) by lia. done.
Qed.

End sentence_facts.

(** ** Marking a cell in the engine *)
Section marking.
Implicit Types (ai : AI.t) (c : Cell).

(** C10: marking the same cell as a mine a second time changes nothing:
    the mine set, every sentence's cells and every sentence's count are
    those reached after the first call. *)
Theorem mark_mine_idempotent ai c :
  AI.mark_mine c (AI.mark_mine c ai) = AI.mark_mine c ai.
Proof.
  unfold AI.mark_mine; simpl. f_equal.
  - set_solver.
  - rewrite <- list_fmap_compose. apply list_fmap_ext.
    intros i s _. apply sentence_mark_mine_idem.
Qed.

End marking.

(** ** The neighbourhood of a cell *)
Section neighbours.
Implicit Types (ai : AI.t) (c cell : Cell) (X acc : gset Cell).

Lemma elem_of_range lo hi k : k ∈ range lo hi ↔ lo <= k < hi.
Proof. unfold range. rewrite elem_of_seqZ. lia. Qed.

Lemma block_row_elem X row cols acc c :
  c ∈ foldl (λ acc col,
        if bool_decide ((row, col) ∈ X) then acc else {[(row, col)]} ∪ acc)
      acc cols
  ↔ c ∈ acc ∨ (c.1 = row ∧ c.2 ∈ cols ∧ c ∉ X).
Proof.
  revert acc. induction cols as [|col cols IH]; intros acc; simpl.
  - set_solver.
  - rewrite IH. destruct c as [r k]. case_bool_decide; set_solver.
Qed.

Lemma block_elem X rows cols acc c :
  c ∈ foldl (λ acc row,
        foldl (λ acc col,
          if bool_decide ((row, col) ∈ X) then acc else {[(row, col)]} ∪ acc)
          acc cols)
      acc rows
  ↔ c ∈ acc ∨ (c.1 ∈ rows ∧ c.2 ∈ cols ∧ c ∉ X).
Proof.
  revert acc. induction rows as [|row rows IH]; intros acc; simpl.
  - set_solver.
  - rewrite IH, block_row_elem. set_solver.
Qed.

(** The set returned is the clamped block without the known safe cells. *)
Lemma get_neighbours_elem ai cell c :
  c ∈ AI.get_neighbours ai cell ↔
  (AI.row_bounds ai cell).1 <= c.1 <= (AI.row_bounds ai cell).2 ∧
  (AI.col_bounds ai cell).1 <= c.2 <= (AI.col_bounds ai cell).2 ∧
  c ∉ AI.safes ai.
Proof.
  unfold AI.get_neighbours.
  destruct (AI.row_bounds ai cell) as [up down].
  destruct (AI.col_bounds ai cell) as [lft rgt].
  rewrite block_elem, !elem_of_range. simpl. set_solver by lia.
Qed.

Lemma row_bounds_cases ai cell :
  AI.row_bounds ai cell =
    if bool_decide (cell.1 = 0) then (cell.1, cell.1 + 1)
    else if bool_decide (cell.1 = AI.height ai - 1)
         then (cell.1 - 1, AI.height ai - 1)
         else (cell.1 - 1, cell.1 + 1).
Proof. reflexivity. Qed.

Lemma col_bounds_cases ai cell :
  AI.col_bounds ai cell =
    if bool_decide (cell.2 = 0) then (cell.2, cell.2 + 1)
    else if bool_decide (cell.2 = AI.width ai - 1)
         then (cell.2 - 1, AI.width ai - 1)
         else (cell.2 - 1, cell.2 + 1).
Proof. reflexivity. Qed.

(** A cell of the board that lies in the three by three block around
    [cell] lies in the clamped block, whatever the dimensions. *)
Lemma clamped_block_covers ai cell c :
  in_grid (AI.height ai) (AI.width ai) c →
  Z.abs (c.1 - cell.1) <= 1 → Z.abs (c.2 - cell.2) <= 1 →
  (AI.row_bounds ai cell).1 <= c.1 <= (AI.row_bounds ai cell).2 ∧
  (AI.col_bounds ai cell).1 <= c.2 <= (AI.col_bounds ai cell).2.
Proof.
  intros [Hr Hc] H1 H2. rewrite row_bounds_cases, col_bounds_cases.
  repeat case_bool_decide; simpl; lia.
Qed.

Lemma clamped_block_within ai cell c :
  (AI.row_bounds ai cell).1 <= c.1 <= (AI.row_bounds ai cell).2 →
  (AI.col_bounds ai cell).1 <= c.2 <= (AI.col_bounds ai cell).2 →
  Z.abs (c.1 - cell.1) <= 1 ∧ Z.abs (c.2 - cell.2) <= 1.
Proof.
  rewrite row_bounds_cases, col_bounds_cases.
  repeat case_bool_decide; simpl; lia.
Qed.

(** C6, as the code has it: on a grid with at least two rows and two
    columns, for an in-bounds cell, the set returned holds exactly the
    grid cells at Chebyshev distance at most 1 that are not known safe.
    The centre is left out only when it is known safe, as it is when
    [add_knowledge] calls; then the distance is exactly 1. *)
Theorem get_neighbours_spec ai cell c :
  2 <= AI.height ai → 2 <= AI.width ai →
  in_grid (AI.height ai) (AI.width ai) cell →
  (c ∈ AI.get_neighbours ai cell ↔
     in_grid (AI.height ai) (AI.width ai) c ∧
     chebyshev c cell <= 1 ∧ c ∉ AI.safes ai) ∧
  (cell ∈ AI.safes ai →
     (c ∈ AI.get_neighbours ai cell ↔
        in_grid (AI.height ai) (AI.width ai) c ∧
        chebyshev c cell = 1 ∧ c ∉ AI.safes ai)).
Proof.
  intros Hh Hw [Hr Hc].
  assert (c ∈ AI.get_neighbours ai cell ↔
     in_grid (AI.height ai) (AI.width ai) c ∧
     chebyshev c cell <= 1 ∧ c ∉ AI.safes ai) as Hmain.
  { rewrite get_neighbours_elem, row_bounds_cases, col_bounds_cases.
    unfold in_grid, chebyshev.
    repeat case_bool_decide; simpl; split; intros (? & ? & ?);
      (split_and!; [lia..|done]). }
  split; [exact Hmain|].
  intros Hsafe. rewrite Hmain. unfold chebyshev.
  split; intros (Hg & Hd & Hs); (split_and!; [done| |done]); [|lia].
  destruct (decide (c = cell)) as [->|Hne]; [done|].
  destruct c as [r k], cell as [r' k']; simpl in *.
  assert (r ≠ r' ∨ k ≠ k') as [?|?] by (destruct (decide (r = r')); [right; congruence|by left]); lia.
Qed.

Lemma get_neighbours_spec_witness :
  ((1, 1) ∈ AI.get_neighbours (AI.mark_safe (0, 0) (AI.init 8 8)) (0, 0) ↔
     in_grid 8 8 (1, 1) ∧ chebyshev (1, 1) (0, 0) <= 1 ∧
     (1, 1) ∉ AI.safes (AI.mark_safe (0, 0) (AI.init 8 8))) ∧
  ((0, 0) ∈ AI.safes (AI.mark_safe (0, 0) (AI.init 8 8)) →
     ((1, 1) ∈ AI.get_neighbours (AI.mark_safe (0, 0) (AI.init 8 8)) (0, 0) ↔
        in_grid 8 8 (1, 1) ∧ chebyshev (1, 1) (0, 0) = 1 ∧
        (1, 1) ∉ AI.safes (AI.mark_safe (0, 0) (AI.init 8 8)))).
Proof.
  apply (get_neighbours_spec (AI.mark_safe (0, 0) (AI.init 8 8)) (0, 0) (1, 1)).
  - simpl. lia.
  - simpl. lia.
  - unfold in_grid. simpl. lia.
Defined.

(** The centre belongs to the answer when it is not known safe. *)
Lemma get_neighbours_centre :
  (3, 3) ∈ AI.get_neighbours (AI.init 8 8) (3, 3) ∧
  in_grid 8 8 (3, 3) ∧ chebyshev (3, 3) (3, 3) = 0.
Proof. split; [|done]. by vm_compute. Qed.

End neighbours.

(** ** Termination of the direct-resolution loop *)
Section memberships.
Implicit Types (ai : AI.t) (c m : Cell) (s : Sentence.t) (k : list Sentence.t).

Lemma memberships_total ai : AI.memberships ai = total_cells (AI.knowledge ai).
Proof. reflexivity. Qed.

Lemma size_remove_le (X : gset Cell) c : (size (X ∖ {[c]}) ≤ size X)%nat.
Proof. apply subseteq_size. set_solver. Qed.

Lemma size_remove_in (X : gset Cell) c :
  c ∈ X → (S (size (X ∖ {[c]})) = size X)%nat.
Proof.
  intros Hc. rewrite size_difference by set_solver.
  rewrite size_singleton.
  assert (size X ≠ 0%nat) by (apply size_non_empty_iff; set_solver). lia.
Qed.

Lemma cells_at_lookup ai i s :
  AI.knowledge ai !! i = Some s → AI.cells_at ai i = Sentence.cells s.
Proof. unfold AI.cells_at. by intros ->. Qed.

(** The engine-level marking operations share one shape: the same
    sentence-level operation is applied at every position, and that
    operation removes the cell and nothing else from the cell set. *)
Section one_marking.
Variable mark : Cell → AI.t → AI.t.
Variable smark : Cell → Sentence.t → Sentence.t.
Hypothesis mark_knowledge :
  ∀ m ai, AI.knowledge (mark m ai) = smark m <$> AI.knowledge ai.
Hypothesis smark_cells :
  ∀ m s, Sentence.cells (smark m s) = Sentence.cells s ∖ {[m]}.

Lemma marking_length m ai :
  length (AI.knowledge (mark m ai)) = length (AI.knowledge ai).
Proof. by rewrite mark_knowledge, length_fmap. Qed.

Lemma marking_cells_at m ai i :
  AI.cells_at (mark m ai) i = AI.cells_at ai i ∖ {[m]}.
Proof.
  unfold AI.cells_at. rewrite mark_knowledge, list_lookup_fmap.
  destruct (AI.knowledge ai !! i) as [s|]; simpl; [apply smark_cells|set_solver].
Qed.

Lemma marking_removes m ai :
  Forall (λ s, m ∉ Sentence.cells s) (AI.knowledge (mark m ai)).
Proof.
  rewrite mark_knowledge, Forall_fmap. apply Forall_forall.
  intros s _. simpl. rewrite smark_cells. set_solver.
Qed.

Lemma total_cells_marking_le m k :
  (total_cells (smark m <$> k) ≤ total_cells k)%nat.
Proof.
  unfold total_cells. induction k as [|s k IH]; csimpl; [lia|].
  rewrite smark_cells. pose proof (size_remove_le (Sentence.cells s) m). lia.
Qed.

Lemma total_cells_marking_lt m k i s :
  k !! i = Some s → m ∈ Sentence.cells s →
  (S (total_cells (smark m <$> k)) ≤ total_cells k)%nat.
Proof.
  revert i. induction k as [|s' k IH]; intros [|i] Hi Hm; simplify_eq/=.
  - pose proof (total_cells_marking_le m k).
    unfold total_cells in *. csimpl. rewrite smark_cells.
    pose proof (size_remove_in _ _ Hm). lia.
  - specialize (IH _ Hi Hm). unfold total_cells in *. csimpl.
    rewrite smark_cells. pose proof (size_remove_le (Sentence.cells s') m). lia.
Qed.

(** Marking every cell of a duplicate-free list taken from the sentence
    at position [i] removes at least that many memberships and counts
    exactly that many changes. *)
Lemma marking_fold l i (st : AI.t * nat) :
  NoDup l → (∀ x, x ∈ l → x ∈ AI.cells_at st.1 i) →
  let r := foldl (λ st m, (mark m st.1, S st.2)) st l in
  (AI.memberships r.1 + length l ≤ AI.memberships st.1)%nat ∧
  r.2 = (st.2 + length l)%nat ∧
  length (AI.knowledge r.1) = length (AI.knowledge st.1).
Proof.
  revert st. induction l as [|m l IH]; intros st Hnd Hin; simpl.
  - split_and!; lia.
  - apply list.NoDup_cons in Hnd as [Hm Hnd].
    destruct (IH (mark m st.1, S st.2) Hnd) as (IH1 & IH2 & IH3).
    { intros x Hx. simpl. rewrite marking_cells_at.
      apply elem_of_difference. split; [apply Hin; by right|].
      intros ->%elem_of_singleton. done. }
    simpl in *. rewrite marking_length in IH3.
    assert (S (AI.memberships (mark m st.1)) ≤ AI.memberships st.1)%nat.
    { assert (m ∈ AI.cells_at st.1 i) as Hmi by (apply Hin; by left).
      unfold AI.cells_at in Hmi.
      destruct (AI.knowledge st.1 !! i) as [s|] eqn:E; simpl in Hmi; [|set_solver].
      rewrite !memberships_total, mark_knowledge.
      by eapply total_cells_marking_lt. }
    split_and!; [lia|lia|done].
Qed.

End one_marking.

Lemma mark_mine_fold l i (st : AI.t * nat) :
  NoDup l → (∀ x, x ∈ l → x ∈ AI.cells_at st.1 i) →
  let r := AI.mark_mines_counting l st in
  (AI.memberships r.1 + length l ≤ AI.memberships st.1)%nat ∧
  r.2 = (st.2 + length l)%nat ∧
  length (AI.knowledge r.1) = length (AI.knowledge st.1).
Proof.
  apply (marking_fold AI.mark_mine Sentence.mark_mine); [done|].
  intros m s. apply sentence_mark_mine_cells.
Qed.

Lemma mark_safe_fold l i (st : AI.t * nat) :
  NoDup l → (∀ x, x ∈ l → x ∈ AI.cells_at st.1 i) →
  let r := AI.mark_safes_counting l st in
  (AI.memberships r.1 + length l ≤ AI.memberships st.1)%nat ∧
  r.2 = (st.2 + length l)%nat ∧
  length (AI.knowledge r.1) = length (AI.knowledge st.1).
Proof.
  apply (marking_fold AI.mark_safe Sentence.mark_safe); [done|].
  intros m s. apply sentence_mark_safe_cells.
Qed.

Lemma bounded_by_refl st : bounded_by st st.
Proof. unfold bounded_by. lia. Qed.

Lemma bounded_by_trans st1 st2 st3 :
  bounded_by st1 st2 → bounded_by st2 st3 → bounded_by st1 st3.
Proof. unfold bounded_by. intros (?&?&?) (?&?&?). split_and!; [lia|lia|congruence]. Qed.

Lemma elements_within (X : gset Cell) : ∀ x, x ∈ elements X → x ∈ X.
Proof. intros x. by rewrite elem_of_elements. Qed.

Lemma mark_mines_bounded st i :
  bounded_by st (AI.mark_mines_counting (elements (AI.cells_at st.1 i)) st).
Proof.
  destruct (mark_mine_fold (elements (AI.cells_at st.1 i)) i st)
    as (H1 & H2 & H3); [apply NoDup_elements|apply elements_within|].
  unfold bounded_by. split_and!; [lia|lia|done].
Qed.

Lemma mark_safes_bounded st i :
  bounded_by st (AI.mark_safes_counting (elements (AI.cells_at st.1 i)) st).
Proof.
  destruct (mark_safe_fold (elements (AI.cells_at st.1 i)) i st)
    as (H1 & H2 & H3); [apply NoDup_elements|apply elements_within|].
  unfold bounded_by. split_and!; [lia|lia|done].
Qed.

Lemma resolve_sentence_bounded st i : bounded_by st (AI.resolve_sentence st i).
Proof.
  unfold AI.resolve_sentence.
  destruct (AI.knowledge st.1 !! i) as [sent|]; [|apply bounded_by_refl].
  simpl. eapply bounded_by_trans; first last.
  - destruct (Sentence.known_safes sent);
      [apply mark_safes_bounded|apply bounded_by_refl].
  - destruct (Sentence.known_mines sent);
      [apply mark_mines_bounded|apply bounded_by_refl].
Qed.

Lemma resolve_fold_bounded l st : bounded_by st (foldl AI.resolve_sentence st l).
Proof.
  revert st. induction l as [|i l IH]; intros st; simpl.
  - apply bounded_by_refl.
  - eapply bounded_by_trans; [apply resolve_sentence_bounded|apply IH].
Qed.

Lemma resolve_pass_bounded ai :
  (AI.memberships (AI.resolve_pass ai).1 + (AI.resolve_pass ai).2
     ≤ AI.memberships ai)%nat ∧
  length (AI.knowledge (AI.resolve_pass ai).1) = length (AI.knowledge ai).
Proof.
  destruct (resolve_fold_bounded (seq 0 (length (AI.knowledge ai))) (ai, 0%nat))
    as (H1 & _ & H3).
  unfold AI.resolve_pass. simpl in *. split; [lia|done].
Qed.

Lemma update_loop_unfold fuel ai :
  AI.update_loop (S fuel) ai =
    if bool_decide (0 < (AI.resolve_pass ai).2)%nat
    then (λ r : AI.t * nat, (r.1, S r.2)) <$>
           AI.update_loop fuel (AI.resolve_pass ai).1
    else Some ((AI.resolve_pass ai).1, 0%nat).
Proof. reflexivity. Qed.

Lemma update_loop_more_fuel fuel ai r :
  AI.update_loop fuel ai = Some r → AI.update_loop (S fuel) ai = Some r.
Proof.
  revert ai r. induction fuel as [|fuel IH]; intros ai r; [done|].
  rewrite (update_loop_unfold (S fuel)), (update_loop_unfold fuel).
  destruct (bool_decide (0 < (AI.resolve_pass ai).2)%nat); [|done].
  destruct (AI.update_loop fuel (AI.resolve_pass ai).1) as [r'|] eqn:E; [|done].
  by rewrite (IH _ _ E).
Qed.

Lemma update_loop_fuel_le fuel fuel' ai r :
  (fuel ≤ fuel')%nat →
  AI.update_loop fuel ai = Some r → AI.update_loop fuel' ai = Some r.
Proof.
  induction 1 as [|fuel' _ IH]; [done|].
  intros H. by apply update_loop_more_fuel, IH.
Qed.

Lemma update_loop_enough fuel ai :
  (AI.memberships ai < fuel)%nat →
  ∃ r, AI.update_loop fuel ai = Some r ∧
       (r.2 ≤ AI.memberships ai)%nat ∧
       (AI.memberships r.1 ≤ AI.memberships ai)%nat ∧
       length (AI.knowledge r.1) = length (AI.knowledge ai).
Proof.
  revert ai. induction fuel as [|fuel IH]; intros ai Hlt; [lia|].
  rewrite update_loop_unfold. destruct (resolve_pass_bounded ai) as [Hb Hl].
  case_bool_decide as Hch.
  - destruct (IH (AI.resolve_pass ai).1) as (r & Hr & H1 & H2 & H3); [lia|].
    exists (r.1, S r.2). rewrite Hr. simpl.
    split_and!; [done|lia|lia|congruence].
  - eexists. split; [done|]. simpl. split_and!; [lia|lia|done].
Qed.

(** C3, as the code has it: the loop of [update_with_new_sentence] ends
    on every engine state.  A counted classification removes the cell
    from every sentence; a pass adds no sentence and removes at least as
    many memberships as it counts changes; so the number of recursive
    calls is at most the number of memberships at entry, and the number
    of passes, the first one included, at most one more: the call
    returns with any fuel (passes allowed) above the number of
    memberships. *)
Theorem update_with_new_sentence_terminates ai :
  (∀ c, Forall (λ s, c ∉ Sentence.cells s) (AI.knowledge (AI.mark_mine c ai)) ∧
        Forall (λ s, c ∉ Sentence.cells s) (AI.knowledge (AI.mark_safe c ai))) ∧
  length (AI.knowledge (AI.resolve_pass ai).1) = length (AI.knowledge ai) ∧
  (AI.memberships (AI.resolve_pass ai).1 + (AI.resolve_pass ai).2
     ≤ AI.memberships ai)%nat ∧
  ∃ r, (∀ fuel, (AI.memberships ai < fuel)%nat →
          AI.update_loop fuel ai = Some r) ∧
       AI.update_with_new_sentence ai = r.1 ∧
       (r.2 ≤ AI.memberships ai)%nat ∧
       (AI.memberships r.1 ≤ AI.memberships ai)%nat ∧
       length (AI.knowledge r.1) = length (AI.knowledge ai).
Proof.
  split_and!.
  - intros c. split.
    + apply (marking_removes AI.mark_mine Sentence.mark_mine); [done|].
      intros m s. apply sentence_mark_mine_cells.
    + apply (marking_removes AI.mark_safe Sentence.mark_safe); [done|].
      intros m s. apply sentence_mark_safe_cells.
  - apply resolve_pass_bounded.
  - apply resolve_pass_bounded.
  - destruct (update_loop_enough (S (AI.memberships ai)) ai)
      as (r & Hr & H1 & H2 & H3); [lia|].
    exists r. split_and!; try done.
    + intros fuel Hf. eapply update_loop_fuel_le; [|exact Hr]. lia.
    + unfold AI.update_with_new_sentence. by rewrite Hr.
Qed.

(** With the single sentence [{(0, 0)} = 1] there is one membership; one
    pass is not enough, since the pass that marks the mine is followed by
    the pass that finds nothing left: two passes are made, one recursive
    call.  With an empty knowledge base there is no membership and still
    one pass. *)
Lemma update_makes_one_pass_more :
  let ai := AI.set_knowledge [Sentence.Sentence {[(0, 0)]} 1] (AI.init 8 8) in
  AI.memberships ai = 1%nat ∧
  AI.update_loop 1 ai = None ∧
  (∃ r, AI.update_loop 2 ai = Some (r, 1%nat)) ∧
  AI.memberships (AI.init 8 8) = 0%nat ∧
  AI.update_loop 0 (AI.init 8 8) = None ∧
  AI.update_loop 1 (AI.init 8 8) = Some (AI.init 8 8, 0%nat).
Proof.
  split_and!; try (by vm_compute).
  eexists. vm_compute. reflexivity.
Qed.

End memberships.

(** ** The classification sets only grow *)
Section growth.
Implicit Types (ai : AI.t) (c : Cell).

Lemma grows_refl ai : grows ai ai.
Proof. unfold grows. set_solver. Qed.

Lemma grows_trans ai1 ai2 ai3 : grows ai1 ai2 → grows ai2 ai3 → grows ai1 ai3.
Proof. unfold grows. intros (?&?&?&?&?) (?&?&?&?&?). split_and!; [set_solver..|congruence|congruence]. Qed.

Lemma mark_mine_grows c ai : grows ai (AI.mark_mine c ai).
Proof. unfold grows; simpl. set_solver. Qed.

Lemma mark_safe_grows c ai : grows ai (AI.mark_safe c ai).
Proof. unfold grows; simpl. set_solver. Qed.

Lemma set_knowledge_grows k ai : grows ai (AI.set_knowledge k ai).
Proof. unfold grows; simpl. set_solver. Qed.

Lemma mark_mines_counting_grows l (st : AI.t * nat) :
  grows st.1 (AI.mark_mines_counting l st).1.
Proof.
  revert st. induction l as [|m l IH]; intros st; simpl; [apply grows_refl|].
  eapply grows_trans; [|apply IH]. apply mark_mine_grows.
Qed.

Lemma mark_safes_counting_grows l (st : AI.t * nat) :
  grows st.1 (AI.mark_safes_counting l st).1.
Proof.
  revert st. induction l as [|m l IH]; intros st; simpl; [apply grows_refl|].
  eapply grows_trans; [|apply IH]. apply mark_safe_grows.
Qed.

Lemma resolve_sentence_grows (st : AI.t * nat) i :
  grows st.1 (AI.resolve_sentence st i).1.
Proof.
  unfold AI.resolve_sentence.
  destruct (AI.knowledge st.1 !! i) as [sent|]; [|apply grows_refl].
  simpl. eapply grows_trans; first last.
  - destruct (Sentence.known_safes sent);
      [apply mark_safes_counting_grows|apply grows_refl].
  - destruct (Sentence.known_mines sent);
      [apply mark_mines_counting_grows|apply grows_refl].
Qed.

Lemma resolve_fold_grows l (st : AI.t * nat) :
  grows st.1 (foldl AI.resolve_sentence st l).1.
Proof.
  revert st. induction l as [|i l IH]; intros st; simpl; [apply grows_refl|].
  eapply grows_trans; [apply resolve_sentence_grows|apply IH].
Qed.

Lemma resolve_pass_grows ai : grows ai (AI.resolve_pass ai).1.
Proof. apply (resolve_fold_grows _ (ai, 0%nat)). Qed.

Lemma update_loop_grows fuel ai r :
  AI.update_loop fuel ai = Some r → grows ai r.1.
Proof.
  revert ai r. induction fuel as [|fuel IH]; intros ai r; [done|].
  rewrite update_loop_unfold. case_bool_decide.
  - destruct (AI.update_loop fuel (AI.resolve_pass ai).1) as [r'|] eqn:E; [|done].
    intros [= <-]. simpl.
    eapply grows_trans; [apply resolve_pass_grows|by apply IH].
  - intros [= <-]. apply resolve_pass_grows.
Qed.

Lemma update_with_new_sentence_grows ai :
  grows ai (AI.update_with_new_sentence ai).
Proof.
  unfold AI.update_with_new_sentence.
  destruct (AI.update_loop _ ai) as [r|] eqn:E; [|apply grows_refl].
  by eapply update_loop_grows.
Qed.

Lemma get_subset_knowledge_grows ai : grows ai (AI.get_subset_knowledge ai).
Proof.
  unfold AI.get_subset_knowledge. simpl.
  case_bool_decide; [apply set_knowledge_grows|apply grows_refl].
Qed.

Lemma add_knowledge_grows c n ai : grows ai (AI.add_knowledge c n ai).
Proof.
  unfold AI.add_knowledge, AI.record_and_resolve.
  eapply grows_trans; [|apply get_subset_knowledge_grows].
  eapply grows_trans; [|apply update_with_new_sentence_grows].
  eapply grows_trans; [|apply set_knowledge_grows].
  eapply grows_trans; [|apply mark_safe_grows].
  unfold grows; simpl. set_solver.
Qed.

Lemma run_grows obs ai : grows ai (run obs ai).
Proof.
  revert ai. induction obs as [|o obs IH]; intros ai; simpl; [apply grows_refl|].
  eapply grows_trans; [apply add_knowledge_grows|apply IH].
Qed.

Lemma update_after_first_pass ai :
  grows (AI.resolve_pass ai).1 (AI.update_with_new_sentence ai).
Proof.
  unfold AI.update_with_new_sentence.
  destruct (update_loop_enough (S (AI.memberships ai)) ai) as (r & Hr & _);
    [lia|].
  rewrite Hr. simpl. rewrite update_loop_unfold in Hr.
  case_bool_decide.
  - destruct (AI.update_loop _ (AI.resolve_pass ai).1) as [r'|] eqn:E; [|done].
    injection Hr as <-. simpl. by eapply update_loop_grows.
  - injection Hr as <-. apply grows_refl.
Qed.

Lemma mark_mines_counting_marks l (st : AI.t * nat) c :
  c ∈ l → c ∈ AI.mines (AI.mark_mines_counting l st).1.
Proof.
  revert st. induction l as [|m l IH]; intros st Hc; [by apply elem_of_nil in Hc|].
  apply elem_of_cons in Hc as [->|Hc]; simpl.
  - apply (mark_mines_counting_grows l (AI.mark_mine m st.1, S st.2)).
    simpl. set_solver.
  - by apply IH.
Qed.

Lemma mark_safes_counting_marks l (st : AI.t * nat) c :
  c ∈ l → c ∈ AI.safes (AI.mark_safes_counting l st).1.
Proof.
  revert st. induction l as [|m l IH]; intros st Hc; [by apply elem_of_nil in Hc|].
  apply elem_of_cons in Hc as [->|Hc]; simpl.
  - apply (mark_safes_counting_grows l (AI.mark_safe m st.1, S st.2)).
    simpl. set_solver.
  - by apply IH.
Qed.

(** A sentence that answers [known_mines] when its turn comes has all
    its cells marked as mines by that step. *)
Lemma resolve_sentence_marks_mines (st : AI.t * nat) i s X c :
  AI.knowledge st.1 !! i = Some s →
  Sentence.known_mines s = Some X → c ∈ Sentence.cells s →
  c ∈ AI.mines (AI.resolve_sentence st i).1.
Proof.
  intros Hi Hm Hc. unfold AI.resolve_sentence. rewrite Hi, Hm. simpl.
  assert (c ∈ AI.mines (AI.mark_mines_counting
            (elements (AI.cells_at st.1 i)) st).1) as H1.
  { apply mark_mines_counting_marks.
    rewrite elem_of_elements, (cells_at_lookup _ _ _ Hi). done. }
  destruct (Sentence.known_safes s); [|done].
  by apply mark_safes_counting_grows.
Qed.

Lemma resolve_sentence_no_information (st : AI.t * nat) i s :
  AI.knowledge st.1 !! i = Some s →
  Sentence.known_mines s = None → Sentence.known_safes s = None →
  AI.resolve_sentence st i = st.
Proof. intros Hi Hm Hs. unfold AI.resolve_sentence. by rewrite Hi, Hm, Hs. Qed.

End growth.

(** ** One subset reduction followed by direct resolution *)
Section subset_example.
Variables c1 c2 c3 c4 : Cell.
Hypothesis distinct : NoDup [c1; c2; c3; c4].

Abbreviation A := (sentence_A c1 c2 c3).
Abbreviation B := (sentence_B c1 c2 c3 c4).
Abbreviation N := (sentence_N c4).

Lemma distinct_cells :
  c1 ≠ c2 ∧ c1 ≠ c3 ∧ c1 ≠ c4 ∧ c2 ≠ c3 ∧ c2 ≠ c4 ∧ c3 ≠ c4.
Proof using distinct.
  pose proof distinct as H.
  rewrite !list.NoDup_cons in H. set_solver.
Qed.

Lemma size_three : size ({[c1; c2; c3]} : gset Cell) = 3%nat.
Proof using distinct.
  destruct distinct_cells as (?&?&?&?&?&?).
  rewrite !size_union, !size_singleton by set_solver. done.
Qed.

Lemma subset_scan_pair (swap : bool) :
  AI.subset_scan (if swap then [B; A] else [A; B]) =
    ((if swap then [N; A] else [A; N]), 2%nat).
Proof using distinct.
  destruct distinct_cells as (?&?&?&?&?&?).
  assert (Sentence.cells A ≠ Sentence.cells B) as HAB by (simpl; set_solver).
  assert (Sentence.cells B ≠ Sentence.cells A) as HBA by (simpl; set_solver).
  assert (Sentence.len A ≠ 0) as HA by (rewrite len_zero_iff; simpl; set_solver).
  assert (Sentence.len B ≠ 0) as HB by (rewrite len_zero_iff; simpl; set_solver).
  assert (Sentence.cells A ⊆ Sentence.cells B) as Hsub by (simpl; set_solver).
  assert (¬ Sentence.cells B ⊆ Sentence.cells A) as Hnsub by (simpl; set_solver).
  assert (Sentence.cells B ∖ Sentence.cells A = {[c4]}) as Hdiff
    by (simpl; set_solver).
  assert (∀ s, bool_decide (Sentence.cells s ≠ Sentence.cells s) = false) as Hself
    by (intros s; by apply bool_decide_eq_false_2; intros []).
  destruct swap; unfold AI.subset_scan, AI.subset_step, AI.replace_cells;
    cbn [foldl fst snd fmap list_fmap];
    rewrite !Hself; cbn [andb];
    rewrite !(bool_decide_eq_true_2 _ HAB), !(bool_decide_eq_true_2 _ HBA),
      !(bool_decide_eq_true_2 _ HA), !(bool_decide_eq_true_2 _ HB),
      !(bool_decide_eq_true_2 _ Hsub), !(bool_decide_eq_false_2 _ Hnsub);
    cbn [andb fst snd]; rewrite Hdiff;
    rewrite ?(bool_decide_eq_false_2 (Sentence.cells B ≠ Sentence.cells B))
      by (intros []; done);
    rewrite ?(bool_decide_eq_true_2 _ HAB); done.
Qed.

(** C5: with the knowledge base made of [A = {c1,c2,c3} = 1] and
    [B = {c1,c2,c3,c4} = 2], in either order, one subset pass puts
    [{c4} = 1] in the place of [B] and leaves [A]; the direct resolution
    run on the result has [c4] among the known mines. *)
Theorem subset_reduction_then_resolution (swap : bool) (ai : AI.t) :
  AI.knowledge ai = (if swap then [B; A] else [A; B]) →
  AI.knowledge (AI.get_subset_knowledge ai) =
    (if swap then [N; A] else [A; N]) ∧
  c4 ∈ AI.mines (AI.update_with_new_sentence (AI.get_subset_knowledge ai)).
Proof using distinct.
  intros Hk.
  assert (AI.knowledge (AI.get_subset_knowledge ai) =
            (if swap then [N; A] else [A; N])) as Hk'.
  { unfold AI.get_subset_knowledge. rewrite Hk, subset_scan_pair. done. }
  split; [exact Hk'|].
  apply update_after_first_pass.
  set (ai' := AI.get_subset_knowledge ai) in *.
  assert (Sentence.known_mines N = Some {[c4]}) as HN.
  { unfold Sentence.known_mines, Sentence.len, sentence_N.
    cbn [Sentence.cells Sentence.count]. rewrite size_singleton. done. }
  unfold AI.resolve_pass. rewrite Hk'.
  destruct swap; cbn [length seq foldl].
  - apply (resolve_fold_grows [1%nat]).
    eapply resolve_sentence_marks_mines; [simpl; by rewrite Hk'|exact HN|].
    simpl. set_solver.
  - rewrite (resolve_sentence_no_information (ai', 0%nat) 0 A).
    + eapply resolve_sentence_marks_mines; [simpl; by rewrite Hk'|exact HN|].
      simpl. set_solver.
    + simpl. by rewrite Hk'.
    + unfold Sentence.known_mines, Sentence.len, sentence_A.
      cbn [Sentence.cells Sentence.count]. rewrite size_three. done.
    + unfold Sentence.known_safes, sentence_A. cbn [Sentence.count].
      rewrite (bool_decide_eq_false_2 (1 <= 0)) by lia.
      by rewrite andb_false_r.
Qed.

End subset_example.

Lemma subset_reduction_then_resolution_witness :
  let ai := AI.set_knowledge
              [Sentence.Sentence {[(0, 0); (0, 1); (0, 2)]} 1;
               Sentence.Sentence {[(0, 0); (0, 1); (0, 2); (0, 3)]} 2]
              (AI.init 8 8) in
  AI.knowledge (AI.get_subset_knowledge ai) =
    [Sentence.Sentence {[(0, 0); (0, 1); (0, 2)]} 1;
     Sentence.Sentence {[(0, 3)]} 1] ∧
  (0, 3) ∈ AI.mines (AI.update_with_new_sentence (AI.get_subset_knowledge ai)).
Proof.
  refine (subset_reduction_then_resolution (0, 0) (0, 1) (0, 2) (0, 3)
            _ false _ _).
  - apply (bool_decide_unpack _). vm_compute. exact I.
  - reflexivity.
Defined.

(** ** The engine on small boards *)
Section small_boards.

(** C4: on the one by three grid, the sentence built for the revealed
    corner [(0, 0)] ranges over [(0, 1)] and over the cells [(1, 0)] and
    [(1, 1)] below the grid; the three are marked safe, and a walk through
    the safe set that meets [(1, 0)] first answers with it. *)
Theorem one_by_three_observation :
  AI.get_neighbours (AI.mark_safe (0, 0) (AI.init 1 3)) (0, 0)
    = {[(0, 1); (1, 0); (1, 1)]} ∧
  AI.safes (AI.add_knowledge (0, 0) 0 (AI.init 1 3))
    = {[(0, 0); (0, 1); (1, 0); (1, 1)]} ∧
  AI.iteration_order [(0, 0); (1, 0); (0, 1); (1, 1)]
    (AI.safes (AI.add_knowledge (0, 0) 0 (AI.init 1 3))) ∧
  AI.make_safe_move [(0, 0); (1, 0); (0, 1); (1, 1)]
    (AI.add_knowledge (0, 0) 0 (AI.init 1 3)) = Some (1, 0) ∧
  ¬ in_grid 1 3 (1, 0).
Proof.
  split_and!.
  - by vm_compute.
  - by vm_compute.
  - apply (bool_decide_unpack _). by vm_compute.
  - by vm_compute.
  - unfold in_grid. simpl. lia.
Qed.

(** C7: the candidates of [make_random_move] are taken from eight rows
    and eight columns whatever the dimensions of the engine; on a fresh
    two by two engine the draw of index 63 answers [(7, 7)]. *)
Theorem random_move_ignores_dimensions :
  AI.make_random_move 63 (AI.init 2 2) = Some (7, 7) ∧
  ¬ in_grid 2 2 (7, 7) ∧
  length (AI.all_possible_cells (AI.init 2 2)) = 64%nat.
Proof.
  split_and!; [by vm_compute| |by vm_compute].
  unfold in_grid. simpl. lia.
Qed.

(** C2: in the third call of [add_knowledge] on the three by three board
    with a mine in the centre, the pass starts from the sentences
    [{(0,1),(1,1)} = 1], [{(0,1),(1,1),(1,2)} = 1] and
    [{(0,1),(1,1),(2,0),(2,1)} = 1].  The first is a subset of the second
    and of the third; after the pass only the third has been replaced,
    the second is unchanged and [{(1,2)} = 0] is absent. *)
Theorem subset_pass_keeps_one_replacement :
  let ai := AI.record_and_resolve (1, 0) 1
              (run [((0, 0), 1); ((0, 2), 1)] (AI.init 3 3)) in
  interface_respected board_3x3 (AI.init 3 3)
    [((0, 0), 1); ((0, 2), 1); ((1, 0), 1)] ∧
  AI.knowledge ai =
    [Sentence.Sentence {[(0, 1); (1, 1)]} 1;
     Sentence.Sentence {[(0, 1); (1, 1); (1, 2)]} 1;
     Sentence.Sentence {[(0, 1); (1, 1); (2, 0); (2, 1)]} 1] ∧
  AI.knowledge (AI.get_subset_knowledge ai) =
    [Sentence.Sentence {[(0, 1); (1, 1)]} 1;
     Sentence.Sentence {[(0, 1); (1, 1); (1, 2)]} 1;
     Sentence.Sentence {[(2, 0); (2, 1)]} 0] ∧
  Sentence.Sentence {[(1, 2)]} 0 ∉ AI.knowledge (AI.get_subset_knowledge ai).
Proof.
  split_and!.
  - apply (bool_decide_unpack _). by vm_compute.
  - by vm_compute.
  - by vm_compute.
  - apply (bool_decide_unpack _). by vm_compute.
Qed.

End small_boards.

(** ** Building a board *)
Section construction.
Implicit Types (g : Minesweeper.t) (b : list (list bool)) (c : Cell).

Lemma size_list_to_set_le (l : list Cell) :
  (size (list_to_set l : gset Cell) ≤ length l)%nat.
Proof.
  induction l as [|x l IH].
  - rewrite list_to_set_nil, size_empty. simpl. lia.
  - rewrite list_to_set_cons, size_union_alt, size_singleton. simpl.
    assert (size (list_to_set l ∖ {[x]} : gset Cell) ≤ size (list_to_set l : gset Cell))%nat
      by (apply subseteq_size; set_solver).
    lia.
Qed.

Lemma elem_of_grid_cells h w c : c ∈ grid_cells h w ↔ in_grid h w c.
Proof.
  unfold grid_cells, in_grid.
  rewrite elem_of_list_to_set, list_elem_of_cprod, !elem_of_range. done.
Qed.

Lemma size_grid_cells h w :
  0 <= h → 0 <= w → Z.of_nat (size (grid_cells h w)) <= h * w.
Proof.
  intros Hh Hw. unfold grid_cells.
  pose proof (size_list_to_set_le (cprod (range 0 h) (range 0 w))) as Hle.
  rewrite list_cprod_list_prod, length_prod in Hle.
  rewrite list_cprod_list_prod.
  unfold range in *. rewrite !length_seqZ in Hle. nia.
Qed.

Lemma append_false_length {A} (l : list A) (row : list bool) :
  length (foldl (λ row _, row ++ [false]) row l) = (length row + length l)%nat.
Proof.
  revert row. induction l as [|x l IH]; intros row; simpl; [lia|].
  rewrite IH, length_app. simpl. lia.
Qed.

Lemma append_rows_shape {A} (l : list A) (new_row : list bool) b n :
  length new_row = n → Forall (λ row, length row = n) b →
  let b' := foldl (λ board _, board ++ [new_row]) b l in
  length b' = (length b + length l)%nat ∧ Forall (λ row, length row = n) b'.
Proof.
  intros Hn. revert b. induction l as [|x l IH]; intros b Hb; simpl.
  - split; [lia|done].
  - destruct (IH (b ++ [new_row])) as [H1 H2].
    { apply Forall_app. split; [done|]. by constructor. }
    split; [|done]. rewrite H1, length_app. simpl. lia.
Qed.

Lemma empty_board_wf h w :
  Minesweeper.wf (Minesweeper.Minesweeper h w ∅ (Minesweeper.empty_board h w) ∅).
Proof.
  unfold Minesweeper.wf, Minesweeper.empty_board. simpl.
  destruct (append_rows_shape (range 0 h)
              (foldl (λ row _, row ++ [false]) [] (range 0 w)) [] (Z.to_nat w))
    as [H1 H2]; [|done|].
  - rewrite append_false_length. unfold range. rewrite length_seqZ. simpl. lia.
  - split; [|done]. rewrite H1. unfold range. rewrite length_seqZ. simpl. lia.
Qed.

Lemma board_get_in_range g i j :
  Minesweeper.wf g →
  0 <= i < Minesweeper.height g → 0 <= j < Minesweeper.width g →
  is_Some (Minesweeper.board_get (Minesweeper.board g) i j).
Proof.
  intros [Hl Hrows] Hi Hj. unfold Minesweeper.board_get.
  destruct (lookup_lt_is_Some_2 (Minesweeper.board g) (Z.to_nat i)) as [row Hrow];
    [lia|].
  rewrite Hrow. simpl. apply lookup_lt_is_Some_2.
  rewrite (Forall_lookup_1 _ _ _ _ Hrows Hrow). lia.
Qed.

Lemma board_set_wf g i j m mf :
  Minesweeper.wf g →
  Minesweeper.wf
    (Minesweeper.Minesweeper (Minesweeper.height g) (Minesweeper.width g) m
       (Minesweeper.board_set (Minesweeper.board g) i j) mf).
Proof.
  intros [Hl Hrows]. unfold Minesweeper.wf, Minesweeper.board_set. simpl.
  destruct (Minesweeper.board g !! Z.to_nat i) as [row|] eqn:Hrow; [|done].
  split; [by rewrite length_insert|].
  apply Forall_insert; [done|].
  rewrite length_insert. by apply (Forall_lookup_1 _ _ _ _ Hrows Hrow).
Qed.

Lemma place_over_capacity n draws g :
  0 < Minesweeper.height g → 0 < Minesweeper.width g →
  Minesweeper.height g * Minesweeper.width g < n →
  Minesweeper.wf g →
  Minesweeper.mines g ⊆ grid_cells (Minesweeper.height g) (Minesweeper.width g) →
  Minesweeper.draws_in_range (Minesweeper.height g) (Minesweeper.width g) draws →
  ∃ g', Minesweeper.place n draws g = Minesweeper.Running g' ∧
        Z.of_nat (size (Minesweeper.mines g')) <
          n.
Proof.
  intros Hh Hw Hn. revert g Hh Hw Hn.
  induction draws as [|[i j] draws IH]; intros g Hh Hw Hn Hwf Hsub Hdraws.
  all: assert (Z.of_nat (size (Minesweeper.mines g)) < n) as Hsize
    by (pose proof (subseteq_size _ _ Hsub);
        pose proof (size_grid_cells (Minesweeper.height g) (Minesweeper.width g));
        lia).
  all: simpl.
  all: rewrite (bool_decide_eq_false_2 (Z.of_nat (size (Minesweeper.mines g)) = n))
    by lia.
  all: rewrite (bool_decide_eq_false_2 (Minesweeper.height g <= 0)),
         (bool_decide_eq_false_2 (Minesweeper.width g <= 0)) by lia; simpl.
  - by exists g.
  - apply Forall_cons_1 in Hdraws as [[Hi Hj] Hdraws]. simpl in Hi, Hj.
    destruct (board_get_in_range g i j Hwf Hi Hj) as [[|] Hget]; rewrite Hget.
    + by apply IH.
    + apply IH; simpl; try done.
      * by apply board_set_wf.
      * intros c [->%elem_of_singleton|Hc]%elem_of_union; [|by apply Hsub].
        by apply elem_of_grid_cells.
Qed.

(** C9, as the code has it: the constructor makes no capacity check.  On a
    board with positive height and width and more mines asked for than
    cells, it raises nothing and returns nothing: after any number of
    draws the placement loop is still running, with fewer mines placed
    than asked for. *)
Theorem construction_over_capacity_never_returns h w n draws :
  0 < h → 0 < w → h * w < n →
  Minesweeper.draws_in_range h w draws →
  ∃ g, Minesweeper.init h w n draws = Minesweeper.Running g ∧
       Z.of_nat (size (Minesweeper.mines g)) < n.
Proof.
  intros Hh Hw Hn Hdraws. unfold Minesweeper.init.
  apply place_over_capacity; simpl; try done.
  apply empty_board_wf.
Qed.

Lemma construction_over_capacity_never_returns_witness :
  ∃ g, Minesweeper.init 2 2 5 [(0, 0); (1, 1); (0, 0)] = Minesweeper.Running g ∧
       Z.of_nat (size (Minesweeper.mines g)) < 5.
Proof.
  apply (construction_over_capacity_never_returns 2 2 5 [(0, 0); (1, 1); (0, 0)]).
  - lia.
  - lia.
  - lia.
  - unfold Minesweeper.draws_in_range. repeat constructor; simpl; lia.
Defined.

(** With two mines asked for on the one by one board, three draws later
    the constructor has raised nothing and is still in its loop. *)
Lemma construction_over_capacity_no_error :
  2 > 1 * 1 ∧
  Minesweeper.draws_in_range 1 1 [(0, 0); (0, 0); (0, 0)] ∧
  Minesweeper.init 1 1 2 [(0, 0); (0, 0); (0, 0)] =
    Minesweeper.Running (Minesweeper.Minesweeper 1 1 {[(0, 0)]} [[true]] ∅) ∧
  Minesweeper.init 1 1 2 [(0, 0); (0, 0); (0, 0)] ≠ Minesweeper.Raised.
Proof.
  split_and!.
  - lia.
  - unfold Minesweeper.draws_in_range. repeat constructor; simpl; lia.
  - by vm_compute.
  - by vm_compute.
Qed.

End construction.

(** ** Soundness of the deductions on a truthful game *)
Section soundness.
Variable g : Minesweeper.t.
Implicit Types (ai : AI.t) (c : Cell) (s : Sentence.t) (X : gset Cell).

Lemma mines_among_remove_mine X c :
  c ∈ X → mine_at g c → mines_among g (X ∖ {[c]}) = mines_among g X - 1.
Proof.
  intros Hc Hm. unfold mines_among.
  assert (filter (mine_at g) (X ∖ {[c]}) = filter (mine_at g) X ∖ {[c]}) as ->
    by set_solver.
  assert (c ∈ filter (mine_at g) X) as Hin by set_solver.
  pose proof (size_remove_in _ _ Hin). lia.
Qed.

Lemma mines_among_remove_safe X c :
  ¬ mine_at g c → mines_among g (X ∖ {[c]}) = mines_among g X.
Proof.
  intros Hm. unfold mines_among.
  assert (filter (mine_at g) (X ∖ {[c]}) = filter (mine_at g) X) as ->
    by set_solver.
  done.
Qed.

Lemma mines_among_all X c :
  Z.of_nat (size X) = mines_among g X → c ∈ X → mine_at g c.
Proof.
  unfold mines_among. intros Hsz Hc.
  assert (filter (mine_at g) X = X) as Heq.
  { apply set_subseteq_size_eq; [set_solver|lia]. }
  rewrite <- Heq in Hc. set_solver.
Qed.

Lemma mines_among_none X c :
  mines_among g X <= 0 → c ∈ X → ¬ mine_at g c.
Proof.
  unfold mines_among. intros Hsz Hc Hm.
  assert (size (filter (mine_at g) X) = 0%nat) as H0 by lia.
  apply size_empty_iff in H0. set_solver.
Qed.

Lemma mines_among_difference X1 X2 :
  X1 ⊆ X2 → mines_among g (X2 ∖ X1) = mines_among g X2 - mines_among g X1.
Proof.
  intros Hsub. unfold mines_among.
  assert (filter (mine_at g) (X2 ∖ X1)
          = filter (mine_at g) X2 ∖ filter (mine_at g) X1) as -> by set_solver.
  rewrite size_difference by set_solver.
  assert (size (filter (mine_at g) X1) ≤ size (filter (mine_at g) X2))%nat
    by (apply subseteq_size; set_solver).
  lia.
Qed.

Lemma sentence_mark_mine_true s c :
  mine_at g c → sentence_true g s → sentence_true g (Sentence.mark_mine c s).
Proof.
  intros Hm Hs. destruct (decide (c ∈ Sentence.cells s)) as [Hc|Hc].
  - rewrite sentence_mark_mine_in by done. unfold sentence_true in *. simpl.
    rewrite mines_among_remove_mine by done. lia.
  - by rewrite sentence_mark_mine_notin.
Qed.

Lemma sentence_mark_safe_true s c :
  ¬ mine_at g c → sentence_true g s → sentence_true g (Sentence.mark_safe c s).
Proof.
  intros Hm Hs. destruct (decide (c ∈ Sentence.cells s)) as [Hc|Hc].
  - rewrite sentence_mark_safe_in by done. unfold sentence_true in *. simpl.
    by rewrite mines_among_remove_safe.
  - by rewrite sentence_mark_safe_notin.
Qed.

Lemma known_mines_are_mines s X c :
  sentence_true g s → Sentence.known_mines s = Some X →
  c ∈ Sentence.cells s → mine_at g c.
Proof.
  intros Hs (_ & _ & Hlen)%known_mines_Some Hc.
  eapply mines_among_all; [|done]. unfold Sentence.len in Hlen.
  unfold sentence_true in Hs. lia.
Qed.

Lemma known_safes_are_safe s X c :
  sentence_true g s → Sentence.known_safes s = Some X →
  c ∈ Sentence.cells s → ¬ mine_at g c.
Proof.
  intros Hs (_ & _ & Hcount)%known_safes_Some Hc.
  eapply mines_among_none; [|done]. unfold sentence_true in Hs. lia.
Qed.

Lemma known_mines_safes_exclusive s X Y :
  Sentence.known_mines s = Some X → Sentence.known_safes s = Some Y → False.
Proof.
  intros (_ & Hne & Hlen)%known_mines_Some (_ & _ & Hcount)%known_safes_Some.
  apply Hne, len_zero_iff. unfold Sentence.len in *. lia.
Qed.

Lemma mark_mine_sound c ai : mine_at g c → sound g ai → sound g (AI.mark_mine c ai).
Proof.
  intros Hm (H1 & H2 & H3). unfold sound; simpl. split_and!.
  - intros c' [->%elem_of_singleton|?]%elem_of_union; auto.
  - done.
  - apply Forall_fmap. eapply Forall_impl; [|exact H3].
    intros s Hs. by apply sentence_mark_mine_true.
Qed.

Lemma mark_safe_sound c ai : ¬ mine_at g c → sound g ai → sound g (AI.mark_safe c ai).
Proof.
  intros Hm (H1 & H2 & H3). unfold sound; simpl. split_and!.
  - done.
  - intros c' [->%elem_of_singleton|?]%elem_of_union; auto.
  - apply Forall_fmap. eapply Forall_impl; [|exact H3].
    intros s Hs. by apply sentence_mark_safe_true.
Qed.

Lemma mark_mines_counting_sound l (st : AI.t * nat) :
  (∀ c, c ∈ l → mine_at g c) → sound g st.1 →
  sound g (AI.mark_mines_counting l st).1.
Proof.
  revert st. induction l as [|m l IH]; intros st Hl Hs; simpl; [done|].
  apply IH; [intros c Hc; apply Hl; by right|].
  simpl. apply mark_mine_sound; [apply Hl; by left|done].
Qed.

Lemma mark_safes_counting_sound l (st : AI.t * nat) :
  (∀ c, c ∈ l → ¬ mine_at g c) → sound g st.1 →
  sound g (AI.mark_safes_counting l st).1.
Proof.
  revert st. induction l as [|m l IH]; intros st Hl Hs; simpl; [done|].
  apply IH; [intros c Hc; apply Hl; by right|].
  simpl. apply mark_safe_sound; [apply Hl; by left|done].
Qed.

Lemma resolve_sentence_sound (st : AI.t * nat) i :
  sound g st.1 → sound g (AI.resolve_sentence st i).1.
Proof.
  intros Hs. unfold AI.resolve_sentence.
  destruct (AI.knowledge st.1 !! i) as [sent|] eqn:Hi; [|done].
  assert (sentence_true g sent) as Htrue.
  { destruct Hs as (_ & _ & H3). by eapply Forall_lookup_1. }
  destruct (Sentence.known_mines sent) as [X|] eqn:Hm;
    destruct (Sentence.known_safes sent) as [Y|] eqn:Hsf; simpl.
  - destruct (known_mines_safes_exclusive _ _ _ Hm Hsf).
  - apply mark_mines_counting_sound; [|done].
    intros c Hc%elem_of_elements. rewrite (cells_at_lookup _ _ _ Hi) in Hc.
    by eapply known_mines_are_mines.
  - apply mark_safes_counting_sound; [|done].
    intros c Hc%elem_of_elements. rewrite (cells_at_lookup _ _ _ Hi) in Hc.
    by eapply known_safes_are_safe.
  - done.
Qed.

Lemma resolve_fold_sound l (st : AI.t * nat) :
  sound g st.1 → sound g (foldl AI.resolve_sentence st l).1.
Proof.
  revert st. induction l as [|i l IH]; intros st Hs; simpl; [done|].
  by apply IH, resolve_sentence_sound.
Qed.

Lemma update_loop_sound fuel ai r :
  sound g ai → AI.update_loop fuel ai = Some r → sound g r.1.
Proof.
  revert ai r. induction fuel as [|fuel IH]; intros ai r Hs; [done|].
  rewrite update_loop_unfold.
  assert (sound g (AI.resolve_pass ai).1) as Hp
    by (by apply (resolve_fold_sound _ (ai, 0%nat))).
  case_bool_decide.
  - destruct (AI.update_loop fuel (AI.resolve_pass ai).1) as [r'|] eqn:E; [|done].
    intros [= <-]. simpl. by eapply IH.
  - by intros [= <-].
Qed.

Lemma update_with_new_sentence_sound ai :
  sound g ai → sound g (AI.update_with_new_sentence ai).
Proof.
  intros Hs. unfold AI.update_with_new_sentence.
  destruct (AI.update_loop _ ai) as [r|] eqn:E; [|done].
  by eapply update_loop_sound.
Qed.

Lemma replace_cells_true k target new_sent :
  Forall (sentence_true g) k → sentence_true g new_sent →
  Forall (sentence_true g) (AI.replace_cells k target new_sent).
Proof.
  intros Hk Hn. unfold AI.replace_cells. apply Forall_fmap.
  eapply Forall_impl; [|exact Hk]. intros s Hs. simpl. by case_bool_decide.
Qed.

Lemma derived_sentence_true s1 s2 :
  sentence_true g s1 → sentence_true g s2 →
  Sentence.cells s1 ⊆ Sentence.cells s2 →
  sentence_true g
    (Sentence.Sentence (Sentence.cells s2 ∖ Sentence.cells s1)
       (Sentence.count s2 - Sentence.count s1)).
Proof.
  unfold sentence_true. simpl. intros -> -> Hsub.
  by rewrite mines_among_difference.
Qed.

Lemma subset_step_true k s1 (st : list Sentence.t * nat) s2 :
  Forall (sentence_true g) k → sentence_true g s1 → sentence_true g s2 →
  Forall (sentence_true g) st.1 →
  Forall (sentence_true g) (AI.subset_step k s1 st s2).1.
Proof.
  intros Hk H1 H2 Hst. unfold AI.subset_step.
  destruct (_ && _ && _); [|done].
  repeat case_bool_decide; simpl; try done;
    apply replace_cells_true; try done; by apply derived_sentence_true.
Qed.

Lemma subset_inner_true k s1 l (st : list Sentence.t * nat) :
  Forall (sentence_true g) k → sentence_true g s1 →
  Forall (sentence_true g) l → Forall (sentence_true g) st.1 →
  Forall (sentence_true g) (foldl (AI.subset_step k s1) st l).1.
Proof.
  intros Hk H1. revert st. induction l as [|s2 l IH]; intros st Hl Hst; [done|].
  apply Forall_cons_1 in Hl as [H2 Hl]. simpl.
  apply IH; [done|]. by apply subset_step_true.
Qed.

Lemma subset_outer_true k l (st : list Sentence.t * nat) :
  Forall (sentence_true g) k →
  Forall (sentence_true g) l → Forall (sentence_true g) st.1 →
  Forall (sentence_true g)
    (foldl (λ st sent_1, foldl (AI.subset_step k sent_1) st k) st l).1.
Proof.
  intros Hk. revert st. induction l as [|s1 l IH]; intros st Hl Hst; [done|].
  apply Forall_cons_1 in Hl as [H1 Hl]. simpl.
  apply IH; [done|]. by apply subset_inner_true.
Qed.

Lemma get_subset_knowledge_sound ai :
  sound g ai → sound g (AI.get_subset_knowledge ai).
Proof.
  intros (H1 & H2 & H3). unfold AI.get_subset_knowledge. simpl.
  case_bool_decide; [|done]. unfold sound; simpl. split_and!; [done..|].
  unfold AI.subset_scan. by apply (subset_outer_true _ _ ([], 0%nat)).
Qed.

(** *** The count reported by the board and the new sentence *)

Lemma nearby_row cell i cols count :
  foldl (λ count j,
      if bool_decide ((i, j) = cell) then count
      else if Minesweeper.in_bounds g i j
           then (if Minesweeper.board_at g i j then count + 1 else count)
           else count)
    count cols
  = count + Z.of_nat (length (filter (λ x, x ≠ cell ∧ mine_at g x) ((i,.) <$> cols))).
Proof.
  revert count. induction cols as [|j cols IH]; intros count; csimpl; [lia|].
  rewrite IH, filter_cons.
  destruct (decide ((i, j) ≠ cell ∧ mine_at g (i, j))) as [[Hne [Hb Hm]]|Hn].
  - rewrite bool_decide_eq_false_2 by done.
    unfold Minesweeper.is_mine in Hm. simpl in Hb, Hm. rewrite Hb, Hm.
    simpl. lia.
  - case_bool_decide as Hc; [done|].
    destruct (Minesweeper.in_bounds g i j) eqn:Hb; [|done].
    destruct (Minesweeper.board_at g i j) eqn:Hm; [|done].
    destruct Hn. by repeat split.
Qed.

Lemma nearby_block cell rows cols count :
  foldl (λ count i,
      foldl (λ count j,
        if bool_decide ((i, j) = cell) then count
        else if Minesweeper.in_bounds g i j
             then (if Minesweeper.board_at g i j then count + 1 else count)
             else count)
        count cols)
    count rows
  = count + Z.of_nat (length (filter (λ x, x ≠ cell ∧ mine_at g x) (cprod rows cols))).
Proof.
  revert count. induction rows as [|i rows IH]; intros count; [simpl; lia|].
  change (cprod (i :: rows) cols) with (((i,.) <$> cols) ++ cprod rows cols).
  cbn [foldl]. rewrite IH, nearby_row, list.filter_app, length_app. lia.
Qed.

Lemma NoDup_cprod (rows cols : list Z) :
  NoDup rows → NoDup cols → NoDup (cprod rows cols).
Proof.
  intros Hr Hc. induction Hr as [|i rows Hi Hr IH]; [constructor|].
  change (cprod (i :: rows) cols) with (((i,.) <$> cols) ++ cprod rows cols).
  apply list.NoDup_app. split_and!.
  - apply NoDup_fmap_2; [|done]. by intros ?? [=].
  - intros x (j & -> & _)%list_elem_of_fmap [Hx _]%list_elem_of_cprod. done.
  - done.
Qed.

Lemma nearby_mines_count cell :
  Minesweeper.nearby_mines g cell =
    Z.of_nat (size (list_to_set (C := gset Cell)
      (filter (λ x, x ≠ cell ∧ mine_at g x)
         (cprod (range (cell.1 - 1) (cell.1 + 2))
                (range (cell.2 - 1) (cell.2 + 2)))))).
Proof.
  unfold Minesweeper.nearby_mines. rewrite nearby_block.
  rewrite size_list_to_set; [lia|].
  apply list.NoDup_filter, NoDup_cprod; apply NoDup_seqZ.
Qed.

Lemma mine_at_in_grid ai c :
  same_grid g ai → mine_at g c → in_grid (AI.height ai) (AI.width ai) c.
Proof.
  intros [-> ->] [Hb _]. unfold Minesweeper.in_bounds in Hb.
  apply andb_prop in Hb as [H1%bool_decide_eq_true H2%bool_decide_eq_true].
  by split.
Qed.

(** The sentence that [add_knowledge] builds from the board's count is
    true, provided the revealed cell is known safe and no known safe cell
    holds a mine. *)
Lemma observed_sentence_true ai cell :
  same_grid g ai → (∀ c, c ∈ AI.safes ai → ¬ mine_at g c) →
  cell ∈ AI.safes ai →
  sentence_true g
    (Sentence.Sentence (AI.get_neighbours ai cell) (Minesweeper.nearby_mines g cell)).
Proof.
  intros Hgrid Hsafe Hcell. unfold sentence_true, mines_among. simpl.
  rewrite nearby_mines_count. do 2 f_equal.
  apply set_eq. intros x.
  rewrite elem_of_filter, get_neighbours_elem, elem_of_list_to_set,
    list_elem_of_filter, list_elem_of_cprod, !elem_of_range.
  split.
  - intros ((Hne & Hm) & Hr & Hc).
    destruct (clamped_block_covers ai cell x) as [? ?];
      [by eapply mine_at_in_grid|lia|lia|].
    do 3 (split; [done|]). intros Hs. by apply (Hsafe x).
  - intros (Hm & Hr & Hc & Hs).
    destruct (clamped_block_within ai cell x Hr Hc) as [? ?].
    split; [split; [by intros ->|done]|]. lia.
Qed.

Lemma add_knowledge_sound cell ai :
  same_grid g ai → ¬ mine_at g cell → sound g ai →
  sound g (AI.add_knowledge cell (Minesweeper.nearby_mines g cell) ai).
Proof.
  intros Hgrid Hcell Hs. unfold AI.add_knowledge, AI.record_and_resolve.
  apply get_subset_knowledge_sound, update_with_new_sentence_sound.
  set (ai1 := AI.MinesweeperAI _ _ _ _ _ _).
  assert (sound g (AI.mark_safe cell ai1)) as (H1 & H2 & H3)
    by (by apply mark_safe_sound).
  unfold sound. cbn [AI.set_knowledge AI.mines AI.safes AI.knowledge].
  split_and!; [done..|].
  apply Forall_app. split; [done|]. constructor; [|constructor].
  apply observed_sentence_true; [done|done|]. simpl. set_solver.
Qed.

Lemma same_grid_grows ai ai' : grows ai ai' → same_grid g ai → same_grid g ai'.
Proof. intros (_&_&_&Hh&Hw) [? ?]. unfold same_grid. split; congruence. Qed.

Lemma run_sound obs ai :
  same_grid g ai → sound g ai →
  interface_respected g ai obs → reveals_safe_cells g obs →
  sound g (run obs ai).
Proof.
  revert ai. induction obs as [|[cell n] obs IH]; intros ai Hgrid Hs Hpre Hrev;
    [done|].
  cbn [interface_respected] in Hpre.
  destruct Hpre as [(Hin & Hnm & Hn) Hpre].
  apply Forall_cons_1 in Hrev as [Hcell Hrev].
  unfold observe in Hpre. cbn [fst snd] in Hn, Hcell, Hpre. subst n.
  change (sound g (run obs
    (AI.add_knowledge cell (Minesweeper.nearby_mines g cell) ai))).
  apply IH.
  - eapply same_grid_grows; [apply add_knowledge_grows|exact Hgrid].
  - by apply add_knowledge_sound.
  - exact Hpre.
  - exact Hrev.
Qed.

Lemma sound_disjoint ai : sound g ai → AI.safes ai ∩ AI.mines ai = ∅.
Proof. intros (H1 & H2 & _). apply set_eq. intros c. set_solver. Qed.

End soundness.

(** ** A whole game *)
Section game.
Implicit Types (g : Minesweeper.t) (ai : AI.t) (obs : list (Cell * Z)).

Lemma run_app obs1 obs2 ai : run (obs1 ++ obs2) ai = run obs2 (run obs1 ai).
Proof. unfold run. apply foldl_app. Qed.

Lemma interface_respected_prefix g ai obs1 obs2 :
  interface_respected g ai (obs1 ++ obs2) → interface_respected g ai obs1.
Proof.
  revert ai. induction obs1 as [|o obs1 IH]; intros ai; simpl; [done|].
  intros [Ho Hrest]. split; [done|]. by apply IH.
Qed.

Lemma init_sound g h w : sound g (AI.init h w).
Proof. unfold sound; simpl. split_and!; [set_solver..|constructor]. Qed.

(** C1, with the precondition the code relies on: along a sequence of
    [add_knowledge] calls on a fresh engine in which every revealed cell
    is in the grid, is not a mine of the board, was not marked as a mine
    before, and comes with the board's count of nearby mines, the safe
    set and the mine set after fewer calls are contained in those after
    more calls, and after every call the two sets share no cell. *)
Theorem classification_monotone_and_disjoint g obs (n m : nat) :
  Minesweeper.wf g →
  interface_respected g (AI.init (Minesweeper.height g) (Minesweeper.width g)) obs →
  reveals_safe_cells g obs →
  (n ≤ m)%nat →
  let start := AI.init (Minesweeper.height g) (Minesweeper.width g) in
  AI.safes (run (take n obs) start) ⊆ AI.safes (run (take m obs) start) ∧
  AI.mines (run (take n obs) start) ⊆ AI.mines (run (take m obs) start) ∧
  AI.safes (run (take m obs) start) ∩ AI.mines (run (take m obs) start) = ∅.
Proof.
  intros _ Hpre Hrev Hnm start.
  assert (run (take m obs) start
          = run (drop n (take m obs)) (run (take n obs) start)) as Hsplit.
  { rewrite <- run_app. f_equal.
    rewrite <- (take_drop n (take m obs)) at 1. f_equal.
    rewrite take_take. f_equal. lia. }
  split_and!.
  - rewrite Hsplit. apply run_grows.
  - rewrite Hsplit. apply run_grows.
  - apply (sound_disjoint g). apply run_sound.
    + done.
    + apply init_sound.
    + apply (interface_respected_prefix _ _ _ (drop m obs)).
      by rewrite take_drop.
    + by apply Forall_take.
Qed.

Lemma classification_monotone_and_disjoint_witness :
  let obs := [((0, 0), 1); ((0, 2), 1); ((1, 0), 1)] in
  let start := AI.init 3 3 in
  AI.safes (run (take 1 obs) start) ⊆ AI.safes (run (take 3 obs) start) ∧
  AI.mines (run (take 1 obs) start) ⊆ AI.mines (run (take 3 obs) start) ∧
  AI.safes (run (take 3 obs) start) ∩ AI.mines (run (take 3 obs) start) = ∅.
Proof.
  refine (classification_monotone_and_disjoint board_3x3
            [((0, 0), 1); ((0, 2), 1); ((1, 0), 1)] 1 3 _ _ _ _).
  - apply (bool_decide_unpack _). vm_compute. exact I.
  - apply (bool_decide_unpack _). vm_compute. exact I.
  - apply (bool_decide_unpack _). vm_compute. exact I.
  - lia.
Defined.

(** On the two by four board with its mine at [(0, 0)], the calls below
    meet the three listed preconditions, but the first one reveals the
    mine; after the fourth call [(0, 2)] is both a known safe cell and a
    known mine. *)
Lemma revealed_mine_breaks_disjointness :
  let obs := [((0, 0), 0); ((0, 1), 1); ((1, 2), 0); ((0, 3), 0)] in
  Minesweeper.wf board_2x4 ∧
  interface_respected board_2x4 (AI.init 2 4) obs ∧
  (0, 2) ∈ AI.safes (run obs (AI.init 2 4)) ∩ AI.mines (run obs (AI.init 2 4)).
Proof.
  split_and!; apply (bool_decide_unpack _); by vm_compute.
Qed.

End game.

(** ** Choosing the next move *)
Section moves.
Implicit Types (ai : AI.t) (c : Cell) (order : list Cell).

Lemma candidates_row ai i cols (acc : list Cell) c :
  c ∈ foldl (λ acc j,
        if bool_decide ((i, j) ∉ AI.moves_made ai)
           && bool_decide ((i, j) ∉ AI.mines ai)
        then acc ++ [(i, j)] else acc)
      acc cols
  ↔ c ∈ acc ∨ (c.1 = i ∧ c.2 ∈ cols ∧ (c ∉ AI.moves_made ai) ∧ (c ∉ AI.mines ai)).
Proof.
  revert acc. induction cols as [|j cols IH]; intros acc; simpl.
  - set_solver.
  - rewrite IH. destruct c as [r k].
    repeat case_bool_decide; simpl; rewrite ?elem_of_app; set_solver.
Qed.

Lemma candidates_block ai rows cols (acc : list Cell) c :
  c ∈ foldl (λ acc i,
        foldl (λ acc j,
          if bool_decide ((i, j) ∉ AI.moves_made ai)
             && bool_decide ((i, j) ∉ AI.mines ai)
          then acc ++ [(i, j)] else acc)
          acc cols)
      acc rows
  ↔ c ∈ acc ∨ (c.1 ∈ rows ∧ c.2 ∈ cols ∧ (c ∉ AI.moves_made ai) ∧ (c ∉ AI.mines ai)).
Proof.
  revert acc. induction rows as [|i rows IH]; intros acc; simpl.
  - set_solver.
  - rewrite IH, candidates_row. set_solver.
Qed.

Lemma elem_of_all_possible_cells ai c :
  c ∈ AI.all_possible_cells ai ↔
  in_grid 8 8 c ∧ (c ∉ AI.moves_made ai) ∧ (c ∉ AI.mines ai).
Proof.
  unfold AI.all_possible_cells, in_grid.
  rewrite candidates_block, !elem_of_range. set_solver by lia.
Qed.

(** X1: [make_safe_move] answers only with a known safe cell that is not
    a move made, and answers [None] exactly when every known safe cell
    is a move made; this holds for every order in which the safe set may
    be walked. *)
Theorem make_safe_move_spec order ai :
  AI.iteration_order order (AI.safes ai) →
  (∀ c, AI.make_safe_move order ai = Some c →
        c ∈ AI.safes ai ∧ c ∉ AI.moves_made ai) ∧
  (AI.make_safe_move order ai = None ↔ AI.safes ai ⊆ AI.moves_made ai).
Proof.
  intros [_ Hset]. unfold AI.make_safe_move. split.
  - intros c Hc%head_Some_elem_of%list_elem_of_filter.
    destruct Hc as [Hnot Hin]. split; [|done].
    rewrite <- Hset. by apply elem_of_list_to_set.
  - rewrite head_None. split.
    + intros Hnil c Hc. rewrite <- Hset in Hc.
      apply elem_of_list_to_set in Hc.
      destruct (decide (c ∈ AI.moves_made ai)) as [|Hn]; [done|].
      by destruct (filter_nil_not_elem_of _ _ c Hnil Hn).
    + intros Hsub.
      destruct (filter (λ move, move ∉ AI.moves_made ai) order) as [|c l] eqn:E;
        [done|].
      assert (c ∈ filter (λ move, move ∉ AI.moves_made ai) order) as Hc
        by (rewrite E; by left).
      apply list_elem_of_filter in Hc as [Hnot Hin].
      destruct Hnot. apply Hsub. rewrite <- Hset. by apply elem_of_list_to_set.
Qed.

Lemma make_safe_move_spec_witness :
  (∀ c, AI.make_safe_move [(0, 1); (1, 0); (1, 1); (0, 0)]
          (AI.add_knowledge (0, 0) 0 (AI.init 2 2)) = Some c →
        c ∈ AI.safes (AI.add_knowledge (0, 0) 0 (AI.init 2 2)) ∧
        c ∉ AI.moves_made (AI.add_knowledge (0, 0) 0 (AI.init 2 2))) ∧
  (AI.make_safe_move [(0, 1); (1, 0); (1, 1); (0, 0)]
     (AI.add_knowledge (0, 0) 0 (AI.init 2 2)) = None ↔
   AI.safes (AI.add_knowledge (0, 0) 0 (AI.init 2 2))
     ⊆ AI.moves_made (AI.add_knowledge (0, 0) 0 (AI.init 2 2))).
Proof.
  apply (make_safe_move_spec [(0, 1); (1, 0); (1, 1); (0, 0)]
           (AI.add_knowledge (0, 0) 0 (AI.init 2 2))).
  apply (bool_decide_unpack _). vm_compute. exact I.
Defined.

(** X2: whatever the dimensions of the engine, every answer of
    [make_random_move] lies in rows and columns 0 to 7 and is neither a
    move made nor a known mine; every such cell is the answer for some
    outcome of the random choice; the answer is [None] only when there is
    no such cell, and is a cell for every index below the number of
    candidates. *)
Theorem make_random_move_spec ai :
  (∀ k c, AI.make_random_move k ai = Some c →
          in_grid 8 8 c ∧ (c ∉ AI.moves_made ai) ∧ (c ∉ AI.mines ai)) ∧
  (∀ c, in_grid 8 8 c → c ∉ AI.moves_made ai → c ∉ AI.mines ai →
        ∃ k, AI.make_random_move k ai = Some c) ∧
  (AI.all_possible_cells ai = [] ↔
     ∀ c, in_grid 8 8 c → c ∈ AI.moves_made ai ∨ c ∈ AI.mines ai) ∧
  (∀ k, (k < length (AI.all_possible_cells ai))%nat →
        is_Some (AI.make_random_move k ai)).
Proof.
  unfold AI.make_random_move. split_and!.
  - intros k c. case_bool_decide; [|done].
    intros Hk%list_elem_of_lookup_2. by apply elem_of_all_possible_cells.
  - intros c Hg Hm Hn.
    assert (c ∈ AI.all_possible_cells ai) as Hc
      by (by apply elem_of_all_possible_cells).
    destruct (list_elem_of_lookup_1 _ _ Hc) as [k Hk]. exists k.
    rewrite bool_decide_eq_true_2; [done|]. intros E. rewrite E in Hc.
    by apply elem_of_nil in Hc.
  - split.
    + intros E c Hg.
      destruct (decide (c ∈ AI.moves_made ai)) as [|Hm]; [by left|].
      destruct (decide (c ∈ AI.mines ai)) as [|Hn]; [by right|].
      assert (c ∈ AI.all_possible_cells ai) as Hc
        by (by apply elem_of_all_possible_cells).
      rewrite E in Hc. by apply elem_of_nil in Hc.
    + intros Hall.
      destruct (AI.all_possible_cells ai) as [|c l] eqn:E; [done|].
      assert (c ∈ AI.all_possible_cells ai) as Hc by (rewrite E; by left).
      apply elem_of_all_possible_cells in Hc as (Hg & Hm & Hn).
      destruct (Hall c Hg); done.
  - intros k Hk. rewrite bool_decide_eq_true_2.
    + by apply lookup_lt_is_Some_2.
    + intros E. rewrite E in Hk. simpl in Hk. lia.
Qed.

End moves.

(** ** How the marking operations compose *)
Section marking_algebra.
Implicit Types (ai : AI.t) (c d : Cell) (s : Sentence.t) (order : list Cell).

Lemma sentence_eq s1 s2 :
  Sentence.cells s1 = Sentence.cells s2 → Sentence.count s1 = Sentence.count s2 →
  s1 = s2.
Proof. destruct s1, s2; simpl; by intros -> ->. Qed.

Lemma sentence_mark_mine_count s c :
  Sentence.count (Sentence.mark_mine c s) =
    Sentence.count s - (if bool_decide (c ∈ Sentence.cells s) then 1 else 0).
Proof.
  case_bool_decide.
  - by rewrite sentence_mark_mine_in.
  - rewrite sentence_mark_mine_notin by done. lia.
Qed.

Lemma sentence_mark_safe_count s c :
  Sentence.count (Sentence.mark_safe c s) = Sentence.count s.
Proof.
  destruct (decide (c ∈ Sentence.cells s)).
  - by rewrite sentence_mark_safe_in.
  - by rewrite sentence_mark_safe_notin.
Qed.

Lemma sentence_mark_mine_comm s c d :
  Sentence.mark_mine c (Sentence.mark_mine d s) =
  Sentence.mark_mine d (Sentence.mark_mine c s).
Proof.
  destruct (decide (c = d)) as [->|Hne]; [done|].
  apply sentence_eq.
  - rewrite !sentence_mark_mine_cells. set_solver.
  - rewrite !sentence_mark_mine_count, !sentence_mark_mine_cells.
    repeat case_bool_decide; set_solver by lia.
Qed.

Lemma sentence_mark_safe_comm s c d :
  Sentence.mark_safe c (Sentence.mark_safe d s) =
  Sentence.mark_safe d (Sentence.mark_safe c s).
Proof.
  apply sentence_eq.
  - rewrite !sentence_mark_safe_cells. set_solver.
  - by rewrite !sentence_mark_safe_count.
Qed.

Lemma sentence_mark_mine_safe_comm s c d :
  c ≠ d →
  Sentence.mark_mine c (Sentence.mark_safe d s) =
  Sentence.mark_safe d (Sentence.mark_mine c s).
Proof.
  intros Hne. apply sentence_eq.
  - rewrite sentence_mark_mine_cells, !sentence_mark_safe_cells,
      sentence_mark_mine_cells. set_solver.
  - rewrite sentence_mark_mine_count, !sentence_mark_safe_count,
      sentence_mark_mine_count, sentence_mark_safe_cells.
    repeat case_bool_decide; set_solver by lia.
Qed.

Lemma mark_mine_comm ai c d :
  AI.mark_mine c (AI.mark_mine d ai) = AI.mark_mine d (AI.mark_mine c ai).
Proof.
  unfold AI.mark_mine; simpl. f_equal; [set_solver|].
  rewrite <- !list_fmap_compose. apply list_fmap_ext.
  intros i s _. apply sentence_mark_mine_comm.
Qed.

Lemma mark_safe_comm ai c d :
  AI.mark_safe c (AI.mark_safe d ai) = AI.mark_safe d (AI.mark_safe c ai).
Proof.
  unfold AI.mark_safe; simpl. f_equal; [set_solver|].
  rewrite <- !list_fmap_compose. apply list_fmap_ext.
  intros i s _. apply sentence_mark_safe_comm.
Qed.

Lemma counting_permutation (mark : Cell → AI.t → AI.t) l1 l2 (st : AI.t * nat) :
  (∀ c d ai, mark c (mark d ai) = mark d (mark c ai)) →
  l1 ≡ₚ l2 →
  foldl (λ st m, (mark m st.1, S st.2)) st l1 =
  foldl (λ st m, (mark m st.1, S st.2)) st l2.
Proof.
  intros Hcomm Hp. revert st.
  induction Hp as [|x l1 l2 _ IH|x y l|l1 l2 l3 _ IH1 _ IH2]; intros st.
  - done.
  - simpl. apply IH.
  - simpl. by rewrite Hcomm.
  - by rewrite IH1.
Qed.

Lemma iteration_order_permutation order (X : gset Cell) :
  AI.iteration_order order X → order ≡ₚ elements X.
Proof.
  intros [Hnd <-]. apply NoDup_Permutation; [done|apply NoDup_elements|].
  intros x. by rewrite elem_of_elements, elem_of_list_to_set.
Qed.

(** X3: the loops [for mine in deepcopy(mines)] and
    [for safe in deepcopy(safes)] reach the same engine state and the
    same change count in whatever order the copied set is walked. *)
Theorem marking_loops_order_independent order (X : gset Cell) (st : AI.t * nat) :
  AI.iteration_order order X →
  AI.mark_mines_counting order st = AI.mark_mines_counting (elements X) st ∧
  AI.mark_safes_counting order st = AI.mark_safes_counting (elements X) st.
Proof.
  intros Hp%iteration_order_permutation. split.
  - apply (counting_permutation AI.mark_mine); [|done].
    intros c d ai. apply mark_mine_comm.
  - apply (counting_permutation AI.mark_safe); [|done].
    intros c d ai. apply mark_safe_comm.
Qed.

Lemma marking_loops_order_independent_witness :
  let st := (AI.set_knowledge [Sentence.Sentence {[(0, 0); (0, 1); (1, 1)]} 2]
               (AI.init 2 2), 0%nat) in
  AI.mark_mines_counting [(1, 1); (0, 0)] st
    = AI.mark_mines_counting (elements ({[(0, 0); (1, 1)]} : gset Cell)) st ∧
  AI.mark_safes_counting [(1, 1); (0, 0)] st
    = AI.mark_safes_counting (elements ({[(0, 0); (1, 1)]} : gset Cell)) st.
Proof.
  apply (marking_loops_order_independent [(1, 1); (0, 0)] {[(0, 0); (1, 1)]}).
  apply (bool_decide_unpack _). vm_compute. exact I.
Defined.

(** X4: engine-level [mark_safe] is idempotent and changes no sentence's
    count; marking one cell as a mine and a different cell as safe gives
    the same engine in either order. *)
Theorem mark_safe_idempotent_and_commutes ai c d :
  AI.mark_safe c (AI.mark_safe c ai) = AI.mark_safe c ai ∧
  Sentence.count <$> AI.knowledge (AI.mark_safe c ai)
    = Sentence.count <$> AI.knowledge ai ∧
  (c ≠ d →
   AI.mark_mine c (AI.mark_safe d ai) = AI.mark_safe d (AI.mark_mine c ai)).
Proof.
  split_and!.
  - unfold AI.mark_safe; simpl. f_equal; [set_solver|].
    rewrite <- list_fmap_compose. apply list_fmap_ext. intros i s _. simpl.
    apply sentence_mark_safe_notin. rewrite sentence_mark_safe_cells. set_solver.
  - unfold AI.mark_safe; simpl. rewrite <- list_fmap_compose.
    apply list_fmap_ext. intros i s _. apply sentence_mark_safe_count.
  - intros Hne. unfold AI.mark_mine, AI.mark_safe; simpl. f_equal.
    rewrite <- !list_fmap_compose. apply list_fmap_ext.
    intros i s _. by apply sentence_mark_mine_safe_comm.
Qed.

End marking_algebra.

(** ** The state reached by the direct-resolution loop *)
Section fixed_point.
Implicit Types (ai : AI.t) (s : Sentence.t) (st : AI.t * nat).

Lemma resolve_sentence_counter st i :
  (st.2 ≤ (AI.resolve_sentence st i).2)%nat.
Proof. by destruct (resolve_sentence_bounded st i) as (_ & ? & _). Qed.

Lemma resolve_fold_counter l st :
  (st.2 ≤ (foldl AI.resolve_sentence st l).2)%nat.
Proof. by destruct (resolve_fold_bounded l st) as (_ & ? & _). Qed.

Lemma elements_length_pos (X : gset Cell) : X ≠ ∅ → (0 < length (elements X))%nat.
Proof.
  intros HX. change (length (elements X)) with (size X).
  assert (size X ≠ 0%nat) by (by apply size_non_empty_iff; intros ?%leibniz_equiv).
  lia.
Qed.

Lemma resolve_sentence_quiet st i :
  (AI.resolve_sentence st i).2 = st.2 →
  AI.resolve_sentence st i = st ∧
  ∀ s, AI.knowledge st.1 !! i = Some s → unresolved s.
Proof.
  unfold AI.resolve_sentence.
  destruct (AI.knowledge st.1 !! i) as [sent|] eqn:Hi; [|by split].
  destruct (Sentence.known_mines sent) as [X|] eqn:Hm.
  - intros Hcount. exfalso.
    apply known_mines_Some in Hm as (_ & Hne & _).
    destruct (mark_mine_fold (elements (AI.cells_at st.1 i)) i st)
      as (_ & H2 & _); [apply NoDup_elements|apply elements_within|].
    pose proof (elements_length_pos (AI.cells_at st.1 i)) as Hpos.
    rewrite (cells_at_lookup _ _ _ Hi) in Hpos. specialize (Hpos Hne).
    rewrite (cells_at_lookup _ _ _ Hi) in H2.
    rewrite (cells_at_lookup _ _ _ Hi) in Hcount.
    set (st1 := AI.mark_mines_counting (elements (Sentence.cells sent)) st) in *.
    destruct (Sentence.known_safes sent).
    + pose proof (mark_safes_bounded st1 i) as (_ & Hle & _).
      rewrite Hcount in Hle. lia.
    + lia.
  - destruct (Sentence.known_safes sent) as [Y|] eqn:Hs.
    + intros Hcount. exfalso.
      apply known_safes_Some in Hs as (_ & Hne & _).
      destruct (mark_safe_fold (elements (AI.cells_at st.1 i)) i st)
        as (_ & H2 & _); [apply NoDup_elements|apply elements_within|].
      pose proof (elements_length_pos (AI.cells_at st.1 i)) as Hpos.
      rewrite (cells_at_lookup _ _ _ Hi) in Hpos. specialize (Hpos Hne).
      simpl in Hcount. rewrite (cells_at_lookup _ _ _ Hi) in Hcount, H2.
      rewrite Hcount in H2. lia.
    + intros _. split; [done|]. by intros s [= <-].
Qed.

Lemma resolve_fold_quiet l st :
  (foldl AI.resolve_sentence st l).2 = st.2 →
  foldl AI.resolve_sentence st l = st ∧
  ∀ i s, i ∈ l → AI.knowledge st.1 !! i = Some s → unresolved s.
Proof.
  revert st. induction l as [|i l IH]; intros st Hcount.
  - split; [done|]. intros i s Hi. by apply elem_of_nil in Hi.
  - cbn [foldl] in *.
    pose proof (resolve_sentence_counter st i) as H1.
    pose proof (resolve_fold_counter l (AI.resolve_sentence st i)) as H2.
    destruct (resolve_sentence_quiet st i) as [Heq Hun]; [lia|].
    rewrite Heq in *. destruct (IH st Hcount) as [Hfold Hrest].
    split; [done|]. intros j s [->|Hj]%elem_of_cons; eauto.
Qed.

Lemma resolve_pass_quiet ai :
  (AI.resolve_pass ai).2 = 0%nat →
  AI.resolve_pass ai = (ai, 0%nat) ∧ Forall unresolved (AI.knowledge ai).
Proof.
  intros Hq. unfold AI.resolve_pass in *.
  destruct (resolve_fold_quiet (seq 0 (length (AI.knowledge ai))) (ai, 0%nat) Hq)
    as [Heq Hun].
  split; [done|]. apply Forall_lookup. intros i s Hi.
  apply (Hun i s); [|done]. apply elem_of_seq.
  apply lookup_lt_Some in Hi. lia.
Qed.

Lemma update_loop_quiet fuel ai r :
  AI.update_loop fuel ai = Some r → (AI.resolve_pass r.1).2 = 0%nat.
Proof.
  revert ai r. induction fuel as [|fuel IH]; intros ai r; [done|].
  rewrite update_loop_unfold. case_bool_decide as Hch.
  - destruct (AI.update_loop fuel (AI.resolve_pass ai).1) as [r'|] eqn:E; [|done].
    intros [= <-]. simpl. by eapply IH.
  - intros [= <-]. simpl.
    destruct (resolve_pass_quiet ai) as [Heq _]; [lia|].
    rewrite Heq. simpl. by rewrite Heq.
Qed.

(** X5: when [update_with_new_sentence] returns, no sentence of the
    knowledge base yields a conclusion any more, a further pass changes
    nothing and counts no change, and a second call returns the same
    engine. *)
Theorem update_with_new_sentence_fixed_point ai :
  let r := AI.update_with_new_sentence ai in
  Forall unresolved (AI.knowledge r) ∧
  AI.resolve_pass r = (r, 0%nat) ∧
  AI.update_with_new_sentence r = r.
Proof.
  intros r.
  assert ((AI.resolve_pass r).2 = 0%nat) as Hq.
  { unfold r, AI.update_with_new_sentence.
    destruct (update_loop_enough (S (AI.memberships ai)) ai) as (r' & Hr & _);
      [lia|].
    rewrite Hr. by eapply update_loop_quiet. }
  destruct (resolve_pass_quiet r Hq) as [Heq Hun].
  split_and!; [done..|].
  unfold AI.update_with_new_sentence. rewrite update_loop_unfold, Heq. done.
Qed.

End fixed_point.

(** ** The subset pass *)
Section subset_pass.
Implicit Types (ai : AI.t) (s : Sentence.t) (k l : list Sentence.t)
  (st : list Sentence.t * nat).

Lemma subset_step_cases k s1 st s2 :
  (¬ fires s1 s2 ∧ ¬ fires s2 s1 ∧ AI.subset_step k s1 st s2 = st) ∨
  (fires s1 s2 ∧
   AI.subset_step k s1 st s2 =
     (AI.replace_cells k (Sentence.cells s2) (derived s1 s2), S st.2)) ∨
  (fires s2 s1 ∧
   AI.subset_step k s1 st s2 =
     (AI.replace_cells k (Sentence.cells s1) (derived s2 s1), S st.2)).
Proof.
  unfold AI.subset_step, fires, derived.
  rewrite <- !len_zero_iff.
  repeat case_bool_decide; simpl; try naive_solver.
  exfalso. set_solver.
Qed.

Lemma subset_inner_shape k s1 l st :
  s1 ∈ k → (∀ s2, s2 ∈ l → s2 ∈ k) → scan_shape k st →
  scan_shape k (foldl (AI.subset_step k s1) st l).
Proof.
  intros H1. revert st. induction l as [|s2 l IH]; intros st Hl Hst; [done|].
  cbn [foldl]. apply IH; [intros s Hs; apply Hl; by right|].
  assert (s2 ∈ k) as H2 by (apply Hl; by left).
  destruct (subset_step_cases k s1 st s2) as [(_ & _ & ->)|[[Hf ->]|[Hf ->]]];
    [done|right; simpl..].
  - split; [lia|]. by exists s1, s2.
  - split; [lia|]. by exists s2, s1.
Qed.

Lemma subset_outer_shape k l st :
  (∀ s1, s1 ∈ l → s1 ∈ k) → scan_shape k st →
  scan_shape k (foldl (λ st sent_1, foldl (AI.subset_step k sent_1) st k) st l).
Proof.
  revert st. induction l as [|s1 l IH]; intros st Hl Hst; [done|].
  cbn [foldl]. apply IH; [intros s Hs; apply Hl; by right|].
  apply subset_inner_shape; [apply Hl; by left|done|done].
Qed.

Lemma subset_scan_shape k : scan_shape k (AI.subset_scan k).
Proof. apply subset_outer_shape; [done|by left]. Qed.

Lemma subset_step_counter k s1 st s2 :
  (st.2 ≤ (AI.subset_step k s1 st s2).2)%nat.
Proof.
  destruct (subset_step_cases k s1 st s2) as [(_ & _ & ->)|[[_ ->]|[_ ->]]];
    simpl; lia.
Qed.

Lemma subset_inner_counter k s1 l st :
  (st.2 ≤ (foldl (AI.subset_step k s1) st l).2)%nat.
Proof.
  revert st. induction l as [|s2 l IH]; intros st; [done|]. cbn [foldl].
  pose proof (subset_step_counter k s1 st s2). specialize (IH (AI.subset_step k s1 st s2)).
  lia.
Qed.

Lemma subset_outer_counter k l st :
  (st.2 ≤ (foldl (λ st sent_1, foldl (AI.subset_step k sent_1) st k) st l).2)%nat.
Proof.
  revert st. induction l as [|s1 l IH]; intros st; [done|]. cbn [foldl].
  pose proof (subset_inner_counter k s1 k st).
  specialize (IH (foldl (AI.subset_step k s1) st k)). lia.
Qed.

Lemma subset_inner_quiet k s1 l st :
  (foldl (AI.subset_step k s1) st l).2 = 0%nat →
  ∀ s2, s2 ∈ l → ¬ fires s1 s2.
Proof.
  revert st. induction l as [|s2 l IH]; intros st Hq s Hs;
    [by apply elem_of_nil in Hs|].
  cbn [foldl] in Hq.
  pose proof (subset_inner_counter k s1 l (AI.subset_step k s1 st s2)) as Hle.
  apply elem_of_cons in Hs as [->|Hs]; [|by eapply IH].
  destruct (subset_step_cases k s1 st s2) as [(Hn & _ & _)|[[_ E]|[_ E]]];
    [done|rewrite E in Hle, Hq; simpl in Hle; lia..].
Qed.

Lemma subset_outer_quiet k l st :
  (foldl (λ st sent_1, foldl (AI.subset_step k sent_1) st k) st l).2 = 0%nat →
  ∀ s1 s2, s1 ∈ l → s2 ∈ k → ¬ fires s1 s2.
Proof.
  revert st. induction l as [|s1 l IH]; intros st Hq s s2 Hs Hs2;
    [by apply elem_of_nil in Hs|].
  cbn [foldl] in Hq.
  apply elem_of_cons in Hs as [->|Hs]; [|by eapply IH].
  eapply (subset_inner_quiet k s1 k st); [|done].
  pose proof (subset_outer_counter k l (foldl (AI.subset_step k s1) st k)). lia.
Qed.

Lemma subset_inner_silent k s1 l st :
  (∀ s2, s2 ∈ l → ¬ fires s1 s2 ∧ ¬ fires s2 s1) →
  foldl (AI.subset_step k s1) st l = st.
Proof.
  revert st. induction l as [|s2 l IH]; intros st Hl; [done|]. cbn [foldl].
  destruct (Hl s2) as [Hn1 Hn2]; [by left|].
  destruct (subset_step_cases k s1 st s2) as [(_ & _ & ->)|[[? _]|[? _]]];
    [|done..].
  apply IH. intros s Hs. apply Hl. by right.
Qed.

Lemma subset_outer_silent k l st :
  (∀ s1 s2, s1 ∈ l → s2 ∈ k → ¬ fires s1 s2 ∧ ¬ fires s2 s1) →
  foldl (λ st sent_1, foldl (AI.subset_step k sent_1) st k) st l = st.
Proof.
  revert st. induction l as [|s1 l IH]; intros st Hl; [done|]. cbn [foldl].
  rewrite subset_inner_silent by (intros s2 Hs2; apply Hl; [by left|done]).
  apply IH. intros s s2 Hs Hs2. apply Hl; [by right|done].
Qed.

Lemma replace_cells_length k target new_sent :
  length (AI.replace_cells k target new_sent) = length k.
Proof. unfold AI.replace_cells. by rewrite length_fmap. Qed.

Lemma get_subset_knowledge_length ai :
  length (AI.knowledge (AI.get_subset_knowledge ai)) = length (AI.knowledge ai).
Proof.
  unfold AI.get_subset_knowledge. cbn zeta. case_bool_decide as Hpos; [|done].
  simpl. destruct (subset_scan_shape (AI.knowledge ai))
    as [E|(_ & s1 & s2 & _ & _ & _ & E)].
  - rewrite E in Hpos. simpl in Hpos. lia.
  - rewrite E. apply replace_cells_length.
Qed.

Lemma get_subset_knowledge_sets ai :
  AI.mines (AI.get_subset_knowledge ai) = AI.mines ai ∧
  AI.safes (AI.get_subset_knowledge ai) = AI.safes ai ∧
  AI.moves_made (AI.get_subset_knowledge ai) = AI.moves_made ai.
Proof. unfold AI.get_subset_knowledge. cbn zeta. by case_bool_decide. Qed.

(** X6: one call of [get_subset_knowledge] leaves the three cell sets and
    the number of sentences as they are.  When no sentence's cells are a
    non-empty proper part of another's, the engine is unchanged.
    Otherwise the new knowledge base is the old one in which the
    sentences on one cell set are replaced by the sentence derived from a
    single pair: one replacement, however many pairs there are. *)
Theorem get_subset_knowledge_spec ai :
  let k := AI.knowledge ai in
  let ai' := AI.get_subset_knowledge ai in
  AI.mines ai' = AI.mines ai ∧ AI.safes ai' = AI.safes ai ∧
  AI.moves_made ai' = AI.moves_made ai ∧
  length (AI.knowledge ai') = length k ∧
  ((∀ s1 s2, s1 ∈ k → s2 ∈ k → ¬ fires s1 s2) → ai' = ai) ∧
  ((∃ s1 s2, s1 ∈ k ∧ s2 ∈ k ∧ fires s1 s2) →
   ∃ s1 s2, s1 ∈ k ∧ s2 ∈ k ∧ fires s1 s2 ∧
     AI.knowledge ai' = AI.replace_cells k (Sentence.cells s2) (derived s1 s2)).
Proof.
  intros k ai'.
  destruct (get_subset_knowledge_sets ai) as (Hm & Hs & Hmv).
  split_and!; try done.
  - apply get_subset_knowledge_length.
  - intros Hnone. unfold ai', AI.get_subset_knowledge, AI.subset_scan. cbn zeta.
    rewrite subset_outer_silent; [done|]. intros s1 s2 H1 H2.
    split; by apply Hnone.
  - intros (s1 & s2 & H1 & H2 & Hf).
    unfold ai', AI.get_subset_knowledge. cbn zeta.
    destruct (subset_scan_shape k) as [E|(Hpos & t1 & t2 & Ht1 & Ht2 & Hft & E)].
    + exfalso. apply (subset_outer_quiet k k ([], 0%nat)) with s1 s2; try done.
      fold (AI.subset_scan k). by rewrite E.
    + fold k. rewrite bool_decide_eq_true_2 by done. simpl.
      exists t1, t2. by rewrite E.
Qed.

End subset_pass.

(** ** What one call of [add_knowledge] records *)
Section bookkeeping.
Implicit Types (ai : AI.t) (c cell : Cell) (s : Sentence.t) (st : AI.t * nat).

Lemma mark_mines_counting_moves l st :
  AI.moves_made (AI.mark_mines_counting l st).1 = AI.moves_made st.1.
Proof. revert st. induction l as [|m l IH]; intros st; [done|]. simpl. by rewrite IH. Qed.

Lemma mark_safes_counting_moves l st :
  AI.moves_made (AI.mark_safes_counting l st).1 = AI.moves_made st.1.
Proof. revert st. induction l as [|m l IH]; intros st; [done|]. simpl. by rewrite IH. Qed.

Lemma resolve_sentence_moves st i :
  AI.moves_made (AI.resolve_sentence st i).1 = AI.moves_made st.1.
Proof.
  unfold AI.resolve_sentence.
  destruct (AI.knowledge st.1 !! i) as [sent|]; [|done].
  destruct (Sentence.known_mines sent), (Sentence.known_safes sent); simpl;
    by rewrite ?mark_safes_counting_moves, ?mark_mines_counting_moves.
Qed.

Lemma resolve_fold_moves l st :
  AI.moves_made (foldl AI.resolve_sentence st l).1 = AI.moves_made st.1.
Proof.
  revert st. induction l as [|i l IH]; intros st; [done|]. simpl.
  by rewrite IH, resolve_sentence_moves.
Qed.

Lemma update_loop_moves fuel ai r :
  AI.update_loop fuel ai = Some r → AI.moves_made r.1 = AI.moves_made ai.
Proof.
  revert ai r. induction fuel as [|fuel IH]; intros ai r; [done|].
  rewrite update_loop_unfold.
  assert (AI.moves_made (AI.resolve_pass ai).1 = AI.moves_made ai) as Hp
    by apply (resolve_fold_moves _ (ai, 0%nat)).
  case_bool_decide.
  - destruct (AI.update_loop fuel (AI.resolve_pass ai).1) as [r'|] eqn:E; [|done].
    intros [= <-]. simpl. by rewrite (IH _ _ E).
  - by intros [= <-].
Qed.

Lemma update_with_new_sentence_books ai :
  AI.moves_made (AI.update_with_new_sentence ai) = AI.moves_made ai ∧
  length (AI.knowledge (AI.update_with_new_sentence ai)) = length (AI.knowledge ai).
Proof.
  unfold AI.update_with_new_sentence.
  destruct (update_loop_enough (S (AI.memberships ai)) ai)
    as (r & Hr & _ & _ & Hlen); [lia|].
  rewrite Hr. split; [by eapply update_loop_moves|done].
Qed.

Lemma add_knowledge_books cell count ai :
  AI.moves_made (AI.add_knowledge cell count ai) = {[cell]} ∪ AI.moves_made ai ∧
  cell ∈ AI.safes (AI.add_knowledge cell count ai).
Proof.
  unfold AI.add_knowledge.
  destruct (get_subset_knowledge_sets (AI.record_and_resolve cell count ai))
    as (_ & Hsafes & Hmoves).
  rewrite Hsafes, Hmoves. unfold AI.record_and_resolve.
  set (ai3 := AI.set_knowledge _ _).
  destruct (update_with_new_sentence_books ai3) as [Hm3 _].
  destruct (update_with_new_sentence_grows ai3) as (_ & Hs3 & _).
  split; [by rewrite Hm3|]. apply Hs3. simpl. set_solver.
Qed.

(** X7: one call of [add_knowledge] adds exactly the revealed cell to
    [moves_made], leaves that cell known safe, keeps the dimensions, and
    makes the knowledge base exactly one sentence longer. *)
Theorem add_knowledge_bookkeeping cell count ai :
  let ai' := AI.add_knowledge cell count ai in
  AI.moves_made ai' = {[cell]} ∪ AI.moves_made ai ∧
  cell ∈ AI.safes ai' ∧
  AI.height ai' = AI.height ai ∧ AI.width ai' = AI.width ai ∧
  length (AI.knowledge ai') = S (length (AI.knowledge ai)).
Proof.
  intros ai'. unfold ai'.
  destruct (add_knowledge_books cell count ai) as [Hmoves Hsafe].
  destruct (add_knowledge_grows cell count ai) as (_ & _ & _ & Hh & Hw).
  split_and!; [done..|].
  unfold AI.add_knowledge. rewrite get_subset_knowledge_length.
  unfold AI.record_and_resolve.
  set (ai3 := AI.set_knowledge _ _).
  destruct (update_with_new_sentence_books ai3) as [_ Hl3].
  rewrite Hl3. unfold ai3. simpl.
  rewrite length_app, length_fmap. simpl. lia.
Qed.

End bookkeeping.

(** ** Invariants of every reachable engine state *)
Section reachable.
Implicit Types (ai : AI.t) (c cell : Cell) (s : Sentence.t) (st : AI.t * nat).

Lemma mark_mine_tidy c ai : tidy ai → tidy (AI.mark_mine c ai).
Proof.
  unfold tidy. simpl. intros H. apply Forall_fmap.
  eapply Forall_impl; [|exact H]. intros s Hs. simpl.
  rewrite sentence_mark_mine_cells. set_solver.
Qed.

Lemma mark_safe_tidy c ai : tidy ai → tidy (AI.mark_safe c ai).
Proof.
  unfold tidy. simpl. intros H. apply Forall_fmap.
  eapply Forall_impl; [|exact H]. intros s Hs. simpl.
  rewrite sentence_mark_safe_cells. set_solver.
Qed.

Lemma mark_mines_counting_tidy l st :
  tidy st.1 → tidy (AI.mark_mines_counting l st).1.
Proof.
  revert st. induction l as [|m l IH]; intros st H; [done|]. simpl.
  apply IH. simpl. by apply mark_mine_tidy.
Qed.

Lemma mark_safes_counting_tidy l st :
  tidy st.1 → tidy (AI.mark_safes_counting l st).1.
Proof.
  revert st. induction l as [|m l IH]; intros st H; [done|]. simpl.
  apply IH. simpl. by apply mark_safe_tidy.
Qed.

Lemma resolve_sentence_tidy st i : tidy st.1 → tidy (AI.resolve_sentence st i).1.
Proof.
  intros H. unfold AI.resolve_sentence.
  destruct (AI.knowledge st.1 !! i) as [sent|]; [|done].
  destruct (Sentence.known_mines sent), (Sentence.known_safes sent); simpl;
    auto using mark_mines_counting_tidy, mark_safes_counting_tidy.
Qed.

Lemma resolve_fold_tidy l st : tidy st.1 → tidy (foldl AI.resolve_sentence st l).1.
Proof.
  revert st. induction l as [|i l IH]; intros st H; [done|]. simpl.
  by apply IH, resolve_sentence_tidy.
Qed.

Lemma update_loop_tidy fuel ai r :
  tidy ai → AI.update_loop fuel ai = Some r → tidy r.1.
Proof.
  revert ai r. induction fuel as [|fuel IH]; intros ai r H; [done|].
  rewrite update_loop_unfold.
  assert (tidy (AI.resolve_pass ai).1) as Hp
    by (by apply (resolve_fold_tidy _ (ai, 0%nat))).
  case_bool_decide.
  - destruct (AI.update_loop fuel (AI.resolve_pass ai).1) as [r'|] eqn:E; [|done].
    intros [= <-]. simpl. by eapply IH.
  - by intros [= <-].
Qed.

Lemma update_with_new_sentence_tidy ai :
  tidy ai → tidy (AI.update_with_new_sentence ai).
Proof.
  intros H. unfold AI.update_with_new_sentence.
  destruct (AI.update_loop _ ai) as [r|] eqn:E; [|done].
  by eapply update_loop_tidy.
Qed.

Lemma get_subset_knowledge_tidy ai : tidy ai → tidy (AI.get_subset_knowledge ai).
Proof.
  intros H. unfold AI.get_subset_knowledge. cbn zeta.
  case_bool_decide as Hpos; [|done]. unfold tidy in *. simpl.
  destruct (subset_scan_shape (AI.knowledge ai))
    as [E|(_ & s1 & s2 & _ & H2 & _ & E)].
  - rewrite E in Hpos. simpl in Hpos. lia.
  - rewrite E. unfold AI.replace_cells. apply Forall_fmap.
    eapply Forall_impl; [|exact H]. intros s Hs. simpl.
    case_bool_decide; [done|]. unfold derived. simpl.
    pose proof (proj1 (list.Forall_forall _ _) H s2 H2) as Hs2. simpl in Hs2. set_solver.
Qed.

Lemma add_knowledge_tidy cell count ai :
  tidy ai → tidy (AI.add_knowledge cell count ai).
Proof.
  intros H. unfold AI.add_knowledge, AI.record_and_resolve.
  apply get_subset_knowledge_tidy, update_with_new_sentence_tidy.
  set (ai1 := AI.MinesweeperAI _ _ _ _ _ _).
  assert (tidy (AI.mark_safe cell ai1)) as H2 by (by apply mark_safe_tidy).
  unfold tidy in *. cbn [AI.set_knowledge AI.knowledge AI.safes].
  apply Forall_app. split; [exact H2|]. constructor; [|constructor].
  cbn [Sentence.cells]. intros c Hc Hs.
  by apply get_neighbours_elem in Hc as (_ & _ & Hc).
Qed.

Lemma run_reachable obs ai :
  AI.moves_made ai ⊆ AI.safes ai → tidy ai →
  AI.moves_made (run obs ai) ⊆ AI.safes (run obs ai) ∧ tidy (run obs ai).
Proof.
  revert ai. induction obs as [|[cell n] obs IH]; intros ai Hm Ht; [done|].
  change (run ((cell, n) :: obs) ai) with (run obs (AI.add_knowledge cell n ai)).
  apply IH; [|by apply add_knowledge_tidy].
  destruct (add_knowledge_books cell n ai) as (Hmv & Hcell).
  destruct (add_knowledge_grows cell n ai) as (_ & Hs & _).
  rewrite Hmv. set_solver.
Qed.

(** X8: after any sequence of [add_knowledge] calls on a fresh engine,
    whatever cells and counts were passed, every move made is a known
    safe cell and no sentence of the knowledge base mentions a known
    safe cell. *)
Theorem reachable_state_invariants h w obs :
  let ai := run obs (AI.init h w) in
  AI.moves_made ai ⊆ AI.safes ai ∧
  ∀ s c, s ∈ AI.knowledge ai → c ∈ Sentence.cells s → c ∉ AI.safes ai.
Proof.
  intros ai. destruct (run_reachable obs (AI.init h w)) as [Hm Ht].
  - done.
  - constructor.
  - split; [done|]. intros s c Hs Hc Hsafe.
    pose proof (proj1 (list.Forall_forall _ _) Ht s Hs) as Hd. simpl in Hd. set_solver.
Qed.

End reachable.

(** ** What a truthful game guarantees *)
Section truthful_game.
Variable g : Minesweeper.t.
Implicit Types (ai : AI.t) (c cell : Cell) (s : Sentence.t).

Lemma mines_among_bounds (X : gset Cell) :
  0 <= mines_among g X <= Z.of_nat (size X).
Proof.
  unfold mines_among.
  assert (size (filter (mine_at g) X) ≤ size X)%nat
    by (apply subseteq_size; set_solver).
  lia.
Qed.

(** X9: after a sequence of [add_knowledge] calls on a fresh engine of
    the board's dimensions, each for an in-grid cell that holds no mine
    and with the board's count, every known mine holds a mine, no known
    safe cell does, and every sentence states the exact number of mines
    among its cells, which lies between 0 and the number of cells. *)
Theorem engine_sound_after_truthful_game obs :
  Minesweeper.wf g →
  interface_respected g (AI.init (Minesweeper.height g) (Minesweeper.width g)) obs →
  reveals_safe_cells g obs →
  let ai := run obs (AI.init (Minesweeper.height g) (Minesweeper.width g)) in
  (∀ c, c ∈ AI.mines ai → mine_at g c) ∧
  (∀ c, c ∈ AI.safes ai → ¬ mine_at g c) ∧
  (∀ s, s ∈ AI.knowledge ai →
        Sentence.count s = mines_among g (Sentence.cells s) ∧
        0 <= Sentence.count s <= Sentence.len s).
Proof.
  intros _ Hpre Hrev ai.
  destruct (run_sound g obs (AI.init (Minesweeper.height g) (Minesweeper.width g)))
    as (H1 & H2 & H3); [done|apply init_sound|done|done|].
  split_and!; [done..|]. intros s Hs.
  pose proof (proj1 (list.Forall_forall _ _) H3 s Hs) as Htrue.
  unfold sentence_true in Htrue. split; [done|].
  rewrite Htrue. apply mines_among_bounds.
Qed.

(** X10: for a sentence that states the exact number of mines among its
    cells, every cell answered by [known_mines] holds a mine and no cell
    answered by [known_safes] does. *)
Theorem known_answers_sound s :
  sentence_true g s →
  (∀ X c, Sentence.known_mines s = Some X → c ∈ X → mine_at g c) ∧
  (∀ X c, Sentence.known_safes s = Some X → c ∈ X → ¬ mine_at g c).
Proof.
  intros Htrue. split; intros X c HX Hc.
  - pose proof HX as (-> & _)%known_mines_Some.
    by eapply known_mines_are_mines.
  - pose proof HX as (-> & _)%known_safes_Some.
    by eapply known_safes_are_safe.
Qed.

(** X11: [nearby_mines] is the number of cells of the board at Chebyshev
    distance 1 from the given cell that hold a mine, for any cell, on or
    off the board; it lies between 0 and 8. *)
Theorem nearby_mines_spec cell :
  Minesweeper.nearby_mines g cell =
    Z.of_nat (size (filter (λ x, chebyshev x cell = 1 ∧ mine_at g x)
                      (grid_cells (Minesweeper.height g) (Minesweeper.width g)))) ∧
  0 <= Minesweeper.nearby_mines g cell <= 8.
Proof.
  split.
  - rewrite nearby_mines_count. do 2 f_equal. apply set_eq. intros x.
    rewrite elem_of_list_to_set, list_elem_of_filter, list_elem_of_cprod,
      !elem_of_range, elem_of_filter, elem_of_grid_cells.
    unfold chebyshev. destruct x as [r k], cell as [r' k']. simpl.
    split.
    + intros ((Hne & Hm) & Hr & Hk). split; [split; [|done]|].
      * assert (r ≠ r' ∨ k ≠ k') as [?|?]
          by (destruct (decide (r = r')); [right; congruence|by left]); lia.
      * destruct Hm as [Hb _]. unfold Minesweeper.in_bounds in Hb. simpl in Hb.
        apply andb_prop in Hb as [?%bool_decide_eq_true ?%bool_decide_eq_true].
        by split.
    + intros ((Hd & Hm) & _). split; [split; [|done]|lia].
      intros [= -> ->]. lia.
  - unfold Minesweeper.nearby_mines. rewrite nearby_block.
    set (L := cprod _ _).
    assert (length L = 9%nat) as HL.
    { unfold L. rewrite list_cprod_list_prod, length_prod. unfold range.
      rewrite !length_seqZ. lia. }
    assert (cell ∈ L) as Hin.
    { unfold L. rewrite list_elem_of_cprod, !elem_of_range. lia. }
    pose proof (length_filter_lt (λ x, x ≠ cell ∧ mine_at g x) L cell Hin) as Hlt.
    assert (¬ (cell ≠ cell ∧ mine_at g cell)) as Hn by (by intros [? _]).
    specialize (Hlt Hn). lia.
Qed.

End truthful_game.

Lemma engine_sound_after_truthful_game_witness :
  let ai := run [((0, 0), 1); ((0, 2), 1); ((1, 0), 1)] (AI.init 3 3) in
  (∀ c, c ∈ AI.mines ai → mine_at board_3x3 c) ∧
  (∀ c, c ∈ AI.safes ai → ¬ mine_at board_3x3 c) ∧
  (∀ s, s ∈ AI.knowledge ai →
        Sentence.count s = mines_among board_3x3 (Sentence.cells s) ∧
        0 <= Sentence.count s <= Sentence.len s).
Proof.
  refine (engine_sound_after_truthful_game board_3x3
            [((0, 0), 1); ((0, 2), 1); ((1, 0), 1)] _ _ _).
  - apply (bool_decide_unpack _). vm_compute. exact I.
  - apply (bool_decide_unpack _). vm_compute. exact I.
  - apply (bool_decide_unpack _). vm_compute. exact I.
Defined.

Lemma known_answers_sound_witness :
  let s := Sentence.Sentence {[(1, 1)]} 1 in
  (∀ X c, Sentence.known_mines s = Some X → c ∈ X → mine_at board_3x3 c) ∧
  (∀ X c, Sentence.known_safes s = Some X → c ∈ X → ¬ mine_at board_3x3 c).
Proof.
  refine (known_answers_sound board_3x3 (Sentence.Sentence {[(1, 1)]} 1) _).
  vm_compute. reflexivity.
Defined.

(** ** A board that is built *)
Section built_board.
Implicit Types (g : Minesweeper.t) (b : list (list bool)) (c : Cell).

Lemma append_false_replicate {A} (l : list A) (row : list bool) :
  foldl (λ row _, row ++ [false]) row l = row ++ replicate (length l) false.
Proof.
  revert row. induction l as [|x l IH]; intros row; simpl.
  - by rewrite app_nil_r.
  - rewrite IH, <- app_assoc. done.
Qed.

Lemma append_rows_replicate {A} (l : list A) (new_row : list bool) b :
  foldl (λ board _, board ++ [new_row]) b l = b ++ replicate (length l) new_row.
Proof.
  revert b. induction l as [|x l IH]; intros b; simpl.
  - by rewrite app_nil_r.
  - rewrite IH, <- app_assoc. done.
Qed.

Lemma empty_board_get h w i j :
  0 <= i < h → 0 <= j < w →
  Minesweeper.board_get (Minesweeper.empty_board h w) i j = Some false.
Proof.
  intros Hi Hj. unfold Minesweeper.empty_board, Minesweeper.board_get.
  rewrite append_rows_replicate, append_false_replicate. simpl.
  unfold range. rewrite !length_seqZ.
  rewrite lookup_replicate_2 by lia. simpl.
  apply lookup_replicate_2. lia.
Qed.

Lemma board_set_get_same g i j :
  Minesweeper.wf g →
  0 <= i < Minesweeper.height g → 0 <= j < Minesweeper.width g →
  Minesweeper.board_get (Minesweeper.board_set (Minesweeper.board g) i j) i j
    = Some true.
Proof.
  intros [Hl Hrows] Hi Hj. unfold Minesweeper.board_get, Minesweeper.board_set.
  destruct (lookup_lt_is_Some_2 (Minesweeper.board g) (Z.to_nat i)) as [row Hrow];
    [lia|].
  rewrite Hrow, list_lookup_insert_eq by lia. simpl.
  apply list_lookup_insert_eq.
  rewrite (Forall_lookup_1 _ _ _ _ Hrows Hrow). lia.
Qed.

Lemma board_set_get_other b i j i' j' :
  0 <= i → 0 <= j → 0 <= i' → 0 <= j' → (i, j) ≠ (i', j') →
  Minesweeper.board_get (Minesweeper.board_set b i j) i' j'
    = Minesweeper.board_get b i' j'.
Proof.
  intros Hi Hj Hi' Hj' Hne. unfold Minesweeper.board_get, Minesweeper.board_set.
  destruct (b !! Z.to_nat i) as [row|] eqn:Hrow; [|done].
  destruct (decide (i = i')) as [<-|Hii].
  - rewrite Hrow, list_lookup_insert_eq by (by eapply lookup_lt_Some). simpl.
    apply list_lookup_insert_ne. intros E. apply Hne. f_equal. lia.
  - rewrite list_lookup_insert_ne by lia. done.
Qed.

Lemma size_grid_cells_eq h w :
  0 <= h → 0 <= w → Z.of_nat (size (grid_cells h w)) = h * w.
Proof.
  intros Hh Hw. unfold grid_cells.
  rewrite size_list_to_set by (apply NoDup_cprod; apply NoDup_seqZ).
  rewrite list_cprod_list_prod, length_prod. unfold range.
  rewrite !length_seqZ. nia.
Qed.

Lemma initial_well_built h w :
  well_built h w (Minesweeper.Minesweeper h w ∅ (Minesweeper.empty_board h w) ∅).
Proof.
  unfold well_built. simpl. split_and!; try done.
  - apply empty_board_wf.
  - intros i j Hi Hj. simpl in *. rewrite empty_board_get by done. set_solver.
Qed.

(** The placement loop, from a well-built state with positive
    dimensions, on draws that [randrange] can produce: it does not raise;
    it returns with exactly [n] mines; while it runs, the number of mines
    differs from [n] (and is below [n] if it started at most [n]) and
    every draw made so far is a mine. *)
Lemma place_outcome h w n draws g :
  0 < h → 0 < w →
  well_built h w g →
  Minesweeper.draws_in_range h w draws →
  match Minesweeper.place n draws g with
  | Minesweeper.Built g' =>
      well_built h w g' ∧ Z.of_nat (size (Minesweeper.mines g')) = n
  | Minesweeper.Raised => False
  | Minesweeper.Running g' =>
      well_built h w g' ∧
      (Z.of_nat (size (Minesweeper.mines g)) <= n →
       Z.of_nat (size (Minesweeper.mines g')) < n) ∧
      (∀ d, d ∈ draws → d ∈ Minesweeper.mines g') ∧
      Minesweeper.mines g ⊆ Minesweeper.mines g'
  end.
Proof.
  intros Hh Hw. revert g.
  induction draws as [|[i j] draws IH]; intros g Hwb Hdraws.
  all: pose proof Hwb as (Hgh & Hgw & Hwf & Hsub & Hagree & Hfound).
  all: simpl; case_bool_decide as Hn; [done|].
  all: rewrite (bool_decide_eq_false_2 (Minesweeper.height g <= 0)),
         (bool_decide_eq_false_2 (Minesweeper.width g <= 0)) by lia; simpl.
  - split_and!; [done|lia| |done]. intros d Hd. by apply elem_of_nil in Hd.
  - apply Forall_cons_1 in Hdraws as [[Hi Hj] Hdraws]. simpl in Hi, Hj.
    destruct (board_get_in_range g i j Hwf) as [flag Hget]; [lia..|].
    rewrite Hget. destruct flag.
    + assert ((i, j) ∈ Minesweeper.mines g) as Hin
        by (apply Hagree; [lia..|done]).
      specialize (IH g Hwb Hdraws).
      destruct (Minesweeper.place n draws g) as [g'| |g']; [done..|].
      destruct IH as (? & ? & Hall & Hmono). split_and!; [done..| |done].
      intros d [->|Hd]%elem_of_cons; [by apply Hmono|by apply Hall].
    + assert ((i, j) ∉ Minesweeper.mines g) as Hnotin.
      { intros Hin. apply Hagree in Hin; [|lia..]. congruence. }
      set (g2 := Minesweeper.Minesweeper _ _ _ _ _).
      assert (well_built h w g2) as Hwb2.
      { unfold well_built, g2. simpl. split_and!; try done.
        - by apply board_set_wf.
        - intros c [->%elem_of_singleton|Hc]%elem_of_union; [|by apply Hsub].
          by apply elem_of_grid_cells.
        - intros i' j' Hi' Hj'. simpl in *.
          destruct (decide ((i, j) = (i', j'))) as [[= <- <-]|Hne].
          + rewrite board_set_get_same by (done || lia). set_solver.
          + rewrite board_set_get_other by (done || lia).
            rewrite (Hagree i' j') by done. set_solver. }
      assert (Z.of_nat (size (Minesweeper.mines g2))
              = Z.of_nat (size (Minesweeper.mines g)) + 1) as Hsize2.
      { unfold g2. simpl. rewrite size_union, size_singleton by set_solver. lia. }
      specialize (IH g2 Hwb2 Hdraws).
      destruct (Minesweeper.place n draws g2) as [g'| |g']; [done..|].
      destruct IH as (? & Hlt & Hall & Hmono). split_and!; [done| | |].
      * intros Hle. apply Hlt. lia.
      * intros d [->|Hd]%elem_of_cons; [|by apply Hall].
        apply Hmono. unfold g2. simpl. set_solver.
      * etrans; [|exact Hmono]. unfold g2. simpl. set_solver.
Qed.

(** X12: with positive dimensions and draws that [randrange] can
    produce, the constructor never raises; when it returns, the board has
    the requested dimensions and exactly the requested number of mines,
    all on the board, the flags of [self.board] are set exactly on the
    cells of [self.mines], and no mine is recorded as found. *)
Theorem construction_result h w n draws :
  0 < h → 0 < w → Minesweeper.draws_in_range h w draws →
  Minesweeper.init h w n draws ≠ Minesweeper.Raised ∧
  ∀ g, Minesweeper.init h w n draws = Minesweeper.Built g →
    well_built h w g ∧ Z.of_nat (size (Minesweeper.mines g)) = n.
Proof.
  intros Hh Hw Hdraws. unfold Minesweeper.init.
  pose proof (place_outcome h w n draws _ Hh Hw (initial_well_built h w) Hdraws)
    as H.
  destruct (Minesweeper.place n draws _) as [g'| |g']; [|done|].
  - split; [done|]. by intros g [= <-].
  - split; [done|]. by intros g [=].
Qed.

(** X13: with positive dimensions and a number of mines between 0 and
    the number of cells, the constructor returns as soon as the draws
    have hit every cell of the board, with exactly that many mines. *)
Theorem construction_returns h w n draws :
  0 < h → 0 < w → 0 <= n <= h * w →
  Minesweeper.draws_in_range h w draws →
  (∀ c, in_grid h w c → c ∈ draws) →
  ∃ g, Minesweeper.init h w n draws = Minesweeper.Built g ∧
       well_built h w g ∧ Z.of_nat (size (Minesweeper.mines g)) = n.
Proof.
  intros Hh Hw Hn Hdraws Hcover. unfold Minesweeper.init.
  pose proof (place_outcome h w n draws _ Hh Hw (initial_well_built h w) Hdraws)
    as H.
  destruct (Minesweeper.place n draws _) as [g'| |g']; [by exists g'|done|].
  exfalso. destruct H as ((_ & _ & _ & Hsub & _) & Hlt & Hall & _).
  cbn [Minesweeper.mines] in Hlt. rewrite size_empty in Hlt.
  specialize (Hlt ltac:(lia)).
  assert (Minesweeper.mines g' = grid_cells h w) as Heq.
  { apply set_eq. intros c. split; [apply Hsub|].
    intros Hc%elem_of_grid_cells. by apply Hall, Hcover. }
  rewrite Heq, size_grid_cells_eq in Hlt by lia. lia.
Qed.

End built_board.

Lemma construction_result_witness :
  Minesweeper.init 2 2 2 [(0, 0); (0, 0); (1, 0)] ≠ Minesweeper.Raised ∧
  ∀ g, Minesweeper.init 2 2 2 [(0, 0); (0, 0); (1, 0)] = Minesweeper.Built g →
    well_built 2 2 g ∧ Z.of_nat (size (Minesweeper.mines g)) = 2.
Proof.
  apply (construction_result 2 2 2 [(0, 0); (0, 0); (1, 0)]).
  - lia.
  - lia.
  - unfold Minesweeper.draws_in_range. repeat constructor; simpl; lia.
Defined.

Lemma construction_returns_witness :
  ∃ g, Minesweeper.init 1 2 1 [(0, 1); (0, 0)] = Minesweeper.Built g ∧
       well_built 1 2 g ∧ Z.of_nat (size (Minesweeper.mines g)) = 1.
Proof.
  apply (construction_returns 1 2 1 [(0, 1); (0, 0)]).
  - lia.
  - lia.
  - lia.
  - unfold Minesweeper.draws_in_range. repeat constructor; simpl; lia.
  - intros [r k] [Hr Hk]. simpl in Hr, Hk.
    assert (r = 0) as -> by lia.
    assert (k = 0 ∨ k = 1) as [-> | ->] by lia; set_solver.
Defined.

(** ** Direct resolution draws every conclusion available at entry *)
Section completeness.
Variable g : Minesweeper.t.
Variable X : gset Cell.
Variable i : nat.
Implicit Types (ai : AI.t) (c m : Cell) (s : Sentence.t) (st : AI.t * nat).

Lemma mark_mine_cells_at m ai j :
  AI.cells_at (AI.mark_mine m ai) j = AI.cells_at ai j ∖ {[m]}.
Proof.
  apply (marking_cells_at AI.mark_mine Sentence.mark_mine); [done|].
  intros ??. apply sentence_mark_mine_cells.
Qed.

Lemma mark_safe_cells_at m ai j :
  AI.cells_at (AI.mark_safe m ai) j = AI.cells_at ai j ∖ {[m]}.
Proof.
  apply (marking_cells_at AI.mark_safe Sentence.mark_safe); [done|].
  intros ??. apply sentence_mark_safe_cells.
Qed.

Lemma mark_mines_counting_cells_at l st j :
  AI.cells_at (AI.mark_mines_counting l st).1 j ⊆ AI.cells_at st.1 j.
Proof.
  revert st. induction l as [|m l IH]; intros st; [done|]. simpl.
  etrans; [apply IH|]. simpl. rewrite mark_mine_cells_at. set_solver.
Qed.

Lemma mark_safes_counting_cells_at l st j :
  AI.cells_at (AI.mark_safes_counting l st).1 j ⊆ AI.cells_at st.1 j.
Proof.
  revert st. induction l as [|m l IH]; intros st; [done|]. simpl.
  etrans; [apply IH|]. simpl. rewrite mark_safe_cells_at. set_solver.
Qed.

Lemma resolve_sentence_cells_at st j k :
  AI.cells_at (AI.resolve_sentence st j).1 k ⊆ AI.cells_at st.1 k.
Proof.
  unfold AI.resolve_sentence.
  destruct (AI.knowledge st.1 !! j) as [sent|]; [|done].
  destruct (Sentence.known_mines sent), (Sentence.known_safes sent); simpl;
    try done.
  - etrans; [apply mark_safes_counting_cells_at|apply mark_mines_counting_cells_at].
  - apply mark_mines_counting_cells_at.
  - apply mark_safes_counting_cells_at.
Qed.

(** Each cell of [X] is already classified or still in sentence [i]. *)
Lemma mines_pending_mark_mines l st :
  (∀ c, c ∈ X → c ∈ AI.mines st.1 ∨ c ∈ AI.cells_at st.1 i) →
  ∀ c, c ∈ X → c ∈ AI.mines (AI.mark_mines_counting l st).1 ∨
               c ∈ AI.cells_at (AI.mark_mines_counting l st).1 i.
Proof.
  revert st. induction l as [|m l IH]; intros st H; [done|]. simpl.
  apply IH. simpl. intros c Hc. rewrite mark_mine_cells_at.
  destruct (decide (c = m)) as [->|Hne]; [set_solver|].
  destruct (H c Hc); set_solver.
Qed.

Lemma mines_pending_mark_safes l st :
  (∀ m, m ∈ l → m ∉ X) →
  (∀ c, c ∈ X → c ∈ AI.mines st.1 ∨ c ∈ AI.cells_at st.1 i) →
  ∀ c, c ∈ X → c ∈ AI.mines (AI.mark_safes_counting l st).1 ∨
               c ∈ AI.cells_at (AI.mark_safes_counting l st).1 i.
Proof.
  revert st. induction l as [|m l IH]; intros st Hl H; [done|]. simpl.
  apply IH; [intros m' Hm'; apply Hl; by right|].
  simpl. intros c Hc. rewrite mark_safe_cells_at.
  assert (c ≠ m) by (intros ->; by apply (Hl m); [left|]).
  destruct (H c Hc); set_solver.
Qed.

Lemma safes_pending_mark_safes l st :
  (∀ c, c ∈ X → c ∈ AI.safes st.1 ∨ c ∈ AI.cells_at st.1 i) →
  ∀ c, c ∈ X → c ∈ AI.safes (AI.mark_safes_counting l st).1 ∨
               c ∈ AI.cells_at (AI.mark_safes_counting l st).1 i.
Proof.
  revert st. induction l as [|m l IH]; intros st H; [done|]. simpl.
  apply IH. simpl. intros c Hc. rewrite mark_safe_cells_at.
  destruct (decide (c = m)) as [->|Hne]; [set_solver|].
  destruct (H c Hc); set_solver.
Qed.

Lemma safes_pending_mark_mines l st :
  (∀ m, m ∈ l → m ∉ X) →
  (∀ c, c ∈ X → c ∈ AI.safes st.1 ∨ c ∈ AI.cells_at st.1 i) →
  ∀ c, c ∈ X → c ∈ AI.safes (AI.mark_mines_counting l st).1 ∨
               c ∈ AI.cells_at (AI.mark_mines_counting l st).1 i.
Proof.
  revert st. induction l as [|m l IH]; intros st Hl H; [done|]. simpl.
  apply IH; [intros m' Hm'; apply Hl; by right|].
  simpl. intros c Hc. rewrite mark_mine_cells_at.
  assert (c ≠ m) by (intros ->; by apply (Hl m); [left|]).
  destruct (H c Hc); set_solver.
Qed.

Lemma resolve_sentence_marks_safes st j s Y c :
  AI.knowledge st.1 !! j = Some s →
  Sentence.known_safes s = Some Y → c ∈ Sentence.cells s →
  c ∈ AI.safes (AI.resolve_sentence st j).1.
Proof.
  intros Hj Hs Hc. unfold AI.resolve_sentence. rewrite Hj, Hs.
  destruct (Sentence.known_mines s) as [Z0|] eqn:Hm;
    [destruct (known_mines_safes_exclusive _ _ _ Hm Hs)|].
  simpl. apply mark_safes_counting_marks.
  rewrite elem_of_elements, (cells_at_lookup _ _ _ Hj). done.
Qed.

(** *** The cells of [X] all hold mines *)

Lemma mines_pending_step st j :
  (∀ c, c ∈ X → mine_at g c) → sound g st.1 →
  (∀ c, c ∈ X → c ∈ AI.mines st.1 ∨ c ∈ AI.cells_at st.1 i) →
  ∀ c, c ∈ X → c ∈ AI.mines (AI.resolve_sentence st j).1 ∨
               c ∈ AI.cells_at (AI.resolve_sentence st j).1 i.
Proof.
  intros HX Hsound H. unfold AI.resolve_sentence.
  destruct (AI.knowledge st.1 !! j) as [sent|] eqn:Hj; [|done].
  assert (sentence_true g sent) as Htrue.
  { destruct Hsound as (_ & _ & H3). by eapply Forall_lookup_1. }
  destruct (Sentence.known_mines sent) as [Y|] eqn:Hm;
    destruct (Sentence.known_safes sent) as [Z0|] eqn:Hs; simpl.
  - destruct (known_mines_safes_exclusive _ _ _ Hm Hs).
  - by apply mines_pending_mark_mines.
  - apply mines_pending_mark_safes; [|done].
    intros m Hin%elem_of_elements Hmx.
    rewrite (cells_at_lookup _ _ _ Hj) in Hin.
    by apply (known_safes_are_safe g sent Z0 m), HX.
  - done.
Qed.

Lemma mines_resolved_at_turn st :
  (∀ c, c ∈ X → mine_at g c) → sound g st.1 →
  AI.cells_at st.1 i ⊆ X →
  (∀ c, c ∈ X → c ∈ AI.mines st.1 ∨ c ∈ AI.cells_at st.1 i) →
  X ⊆ AI.mines (AI.resolve_sentence st i).1.
Proof.
  intros HX Hsound Hsub H c Hc.
  destruct (H c Hc) as [Hin|Hin];
    [by apply (resolve_sentence_grows st i)|].
  unfold AI.cells_at in Hin, Hsub.
  destruct (AI.knowledge st.1 !! i) as [sent|] eqn:Hi; simpl in Hin, Hsub;
    [|set_solver].
  assert (sentence_true g sent) as Htrue.
  { destruct Hsound as (_ & _ & H3). by eapply Forall_lookup_1. }
  apply (resolve_sentence_marks_mines st i sent (Sentence.cells sent));
    [done| |done].
  apply known_mines_Some. split_and!; [done|set_solver|].
  unfold Sentence.len. rewrite Htrue. unfold mines_among. do 2 f_equal.
  apply set_eq. intros x. rewrite elem_of_filter. set_solver.
Qed.

Lemma mines_resolved_by_fold l st :
  (∀ c, c ∈ X → mine_at g c) → sound g st.1 →
  AI.cells_at st.1 i ⊆ X →
  (∀ c, c ∈ X → c ∈ AI.mines st.1 ∨ c ∈ AI.cells_at st.1 i) →
  i ∈ l → X ⊆ AI.mines (foldl AI.resolve_sentence st l).1.
Proof.
  intros HX. revert st. induction l as [|j l IH]; intros st Hsound Hsub H Hi;
    [by apply elem_of_nil in Hi|].
  cbn [foldl]. destruct (decide (j = i)) as [->|Hne].
  - etrans; [by apply mines_resolved_at_turn|].
    apply (resolve_fold_grows l (AI.resolve_sentence st i)).
  - apply elem_of_cons in Hi as [->|Hi]; [done|].
    apply IH; [by apply resolve_sentence_sound| |by apply mines_pending_step|done].
    etrans; [apply resolve_sentence_cells_at|done].
Qed.

(** *** The cells of [X] hold no mine *)

Lemma safes_pending_step st j :
  (∀ c, c ∈ X → ¬ mine_at g c) → sound g st.1 →
  (∀ c, c ∈ X → c ∈ AI.safes st.1 ∨ c ∈ AI.cells_at st.1 i) →
  ∀ c, c ∈ X → c ∈ AI.safes (AI.resolve_sentence st j).1 ∨
               c ∈ AI.cells_at (AI.resolve_sentence st j).1 i.
Proof.
  intros HX Hsound H. unfold AI.resolve_sentence.
  destruct (AI.knowledge st.1 !! j) as [sent|] eqn:Hj; [|done].
  assert (sentence_true g sent) as Htrue.
  { destruct Hsound as (_ & _ & H3). by eapply Forall_lookup_1. }
  destruct (Sentence.known_mines sent) as [Y|] eqn:Hm;
    destruct (Sentence.known_safes sent) as [Z0|] eqn:Hs; simpl.
  - destruct (known_mines_safes_exclusive _ _ _ Hm Hs).
  - apply safes_pending_mark_mines; [|done].
    intros m Hin%elem_of_elements Hmx.
    rewrite (cells_at_lookup _ _ _ Hj) in Hin.
    by apply (HX m Hmx), (known_mines_are_mines g sent Y m).
  - by apply safes_pending_mark_safes.
  - done.
Qed.

Lemma safes_resolved_at_turn st :
  (∀ c, c ∈ X → ¬ mine_at g c) → sound g st.1 →
  AI.cells_at st.1 i ⊆ X →
  (∀ c, c ∈ X → c ∈ AI.safes st.1 ∨ c ∈ AI.cells_at st.1 i) →
  X ⊆ AI.safes (AI.resolve_sentence st i).1.
Proof.
  intros HX Hsound Hsub H c Hc.
  destruct (H c Hc) as [Hin|Hin];
    [by apply (resolve_sentence_grows st i)|].
  unfold AI.cells_at in Hin, Hsub.
  destruct (AI.knowledge st.1 !! i) as [sent|] eqn:Hi; simpl in Hin, Hsub;
    [|set_solver].
  assert (sentence_true g sent) as Htrue.
  { destruct Hsound as (_ & _ & H3). by eapply Forall_lookup_1. }
  apply (resolve_sentence_marks_safes st i sent (Sentence.cells sent));
    [done| |done].
  apply known_safes_Some. split_and!; [done|set_solver|].
  rewrite Htrue. unfold mines_among.
  assert (filter (mine_at g) (Sentence.cells sent) = ∅) as ->.
  { apply set_eq. intros x. rewrite elem_of_filter. set_solver. }
  by rewrite size_empty.
Qed.

Lemma safes_resolved_by_fold l st :
  (∀ c, c ∈ X → ¬ mine_at g c) → sound g st.1 →
  AI.cells_at st.1 i ⊆ X →
  (∀ c, c ∈ X → c ∈ AI.safes st.1 ∨ c ∈ AI.cells_at st.1 i) →
  i ∈ l → X ⊆ AI.safes (foldl AI.resolve_sentence st l).1.
Proof.
  intros HX. revert st. induction l as [|j l IH]; intros st Hsound Hsub H Hi;
    [by apply elem_of_nil in Hi|].
  cbn [foldl]. destruct (decide (j = i)) as [->|Hne].
  - etrans; [by apply safes_resolved_at_turn|].
    apply (resolve_fold_grows l (AI.resolve_sentence st i)).
  - apply elem_of_cons in Hi as [->|Hi]; [done|].
    apply IH; [by apply resolve_sentence_sound| |by apply safes_pending_step|done].
    etrans; [apply resolve_sentence_cells_at|done].
Qed.

End completeness.

Section completeness_theorem.
Variable g : Minesweeper.t.

(** X14: when everything the engine holds is true of the board, every
    sentence that determines its cells at the time of the call has them
    all classified when [update_with_new_sentence] returns: as known
    mines if [known_mines] answers, as known safe cells if [known_safes]
    answers. *)
Theorem resolution_complete (ai : AI.t) (i : nat) (s : Sentence.t) :
  sound g ai → AI.knowledge ai !! i = Some s →
  (is_Some (Sentence.known_mines s) →
   Sentence.cells s ⊆ AI.mines (AI.update_with_new_sentence ai)) ∧
  (is_Some (Sentence.known_safes s) →
   Sentence.cells s ⊆ AI.safes (AI.update_with_new_sentence ai)).
Proof.
  intros Hsound Hi.
  assert (sentence_true g s) as Htrue.
  { destruct Hsound as (_ & _ & H3). by eapply Forall_lookup_1. }
  assert (i ∈ seq 0 (length (AI.knowledge ai))) as Hin.
  { apply elem_of_seq. apply lookup_lt_Some in Hi. lia. }
  pose proof (cells_at_lookup _ _ _ Hi) as Hat.
  split; intros [Y HY].
  - etrans; [|apply update_after_first_pass].
    apply (mines_resolved_by_fold g (Sentence.cells s) i _ (ai, 0%nat));
      simpl; try done.
    + intros c Hc. by eapply known_mines_are_mines.
    + by rewrite Hat.
    + intros c Hc. right. by rewrite Hat.
  - etrans; [|apply update_after_first_pass].
    apply (safes_resolved_by_fold g (Sentence.cells s) i _ (ai, 0%nat));
      simpl; try done.
    + intros c Hc. by eapply known_safes_are_safe.
    + by rewrite Hat.
    + intros c Hc. right. by rewrite Hat.
Qed.

End completeness_theorem.

Lemma resolution_complete_witness :
  let ai := AI.set_knowledge
              [Sentence.Sentence {[(0, 0); (0, 1)]} 0;
               Sentence.Sentence {[(0, 1); (1, 1)]} 1] (AI.init 3 3) in
  (is_Some (Sentence.known_mines (Sentence.Sentence {[(0, 0); (0, 1)]} 0)) →
   Sentence.cells (Sentence.Sentence {[(0, 0); (0, 1)]} 0)
     ⊆ AI.mines (AI.update_with_new_sentence ai)) ∧
  (is_Some (Sentence.known_safes (Sentence.Sentence {[(0, 0); (0, 1)]} 0)) →
   Sentence.cells (Sentence.Sentence {[(0, 0); (0, 1)]} 0)
     ⊆ AI.safes (AI.update_with_new_sentence ai)).
Proof.
  refine (resolution_complete board_3x3 _ 0 _ _ _).
  - unfold sound. simpl. split_and!.
    + intros c Hc. by apply not_elem_of_empty in Hc.
    + intros c Hc. by apply not_elem_of_empty in Hc.
    + repeat constructor; vm_compute; reflexivity.
  - reflexivity.
Defined.

(** ** The answers of a sentence and the safe move *)
Section answers.
Implicit Types (ai : AI.t) (c : Cell) (s : Sentence.t) (order : list Cell).

(** X15: along a truthful game as above, whatever order the safe set is
    walked in, a cell answered by [make_safe_move] holds no mine and has
    not been revealed. *)
Theorem safe_move_is_safe (g : Minesweeper.t) obs order c :
  Minesweeper.wf g →
  interface_respected g (AI.init (Minesweeper.height g) (Minesweeper.width g)) obs →
  reveals_safe_cells g obs →
  let ai := run obs (AI.init (Minesweeper.height g) (Minesweeper.width g)) in
  AI.iteration_order order (AI.safes ai) →
  AI.make_safe_move order ai = Some c →
  ¬ mine_at g c ∧ c ∉ AI.moves_made ai.
Proof.
  intros _ Hpre Hrev ai [_ Hset] Hmove.
  destruct (run_sound g obs (AI.init (Minesweeper.height g) (Minesweeper.width g)))
    as (_ & Hsafe & _); [done|apply init_sound|done|done|].
  unfold AI.make_safe_move in Hmove.
  apply head_Some_elem_of, list_elem_of_filter in Hmove as [Hnot Hin].
  split; [|done]. apply Hsafe. fold ai. rewrite <- Hset.
  by apply elem_of_list_to_set.
Qed.

(** X16: no sentence answers both [known_mines] and [known_safes]; an
    answer of [known_mines] comes with a positive count equal to the
    number of cells, an answer of [known_safes] with a count of at most
    zero, and each answer is the whole, non-empty cell set. *)
Theorem known_answers_exclusive s :
  (Sentence.known_mines s = None ∨ Sentence.known_safes s = None) ∧
  (∀ X, Sentence.known_mines s = Some X →
        X = Sentence.cells s ∧ X ≠ ∅ ∧ 0 < Sentence.count s ∧
        Sentence.count s = Sentence.len s) ∧
  (∀ X, Sentence.known_safes s = Some X →
        X = Sentence.cells s ∧ X ≠ ∅ ∧ Sentence.count s <= 0).
Proof.
  split_and!.
  - destruct (Sentence.known_mines s) as [X|] eqn:Hm; [|by left].
    destruct (Sentence.known_safes s) as [Y|] eqn:Hs; [|by right].
    destruct (known_mines_safes_exclusive _ _ _ Hm Hs).
  - intros X (-> & Hne & Hlen)%known_mines_Some. split_and!; [done..| |done].
    assert (Sentence.len s ≠ 0) by (by rewrite len_zero_iff).
    unfold Sentence.len in *. lia.
  - by intros X (-> & Hne & Hcount)%known_safes_Some.
Qed.

End answers.

Lemma safe_move_is_safe_witness :
  ¬ mine_at board_3x3 (1, 2) ∧
  (1, 2) ∉ AI.moves_made
    (run [((0, 0), 1); ((0, 1), 1); ((0, 2), 1); ((1, 0), 1)] (AI.init 3 3)).
Proof.
  refine (safe_move_is_safe board_3x3
            [((0, 0), 1); ((0, 1), 1); ((0, 2), 1); ((1, 0), 1)]
            [(0, 0); (0, 1); (0, 2); (1, 0); (1, 2)] (1, 2) _ _ _ _ _).
  - apply (bool_decide_unpack _). vm_compute. exact I.
  - apply (bool_decide_unpack _). vm_compute. exact I.
  - apply (bool_decide_unpack _). vm_compute. exact I.
  - apply (bool_decide_unpack _). vm_compute. exact I.
  - vm_compute. reflexivity.
Defined.
